(** * Visualizacao_de_Algoritmos_SO: disk scheduling and page replacement

    A shallow embedding of the two simulators of the repository,
    [DiskScheduling] (FCFS, SSTF, SCAN) and [PageReplacement] (FIFO, LRU),
    followed by the properties that the specification states about them.

    Conventions of the embedding.
    - A React component is a record of its [useState] cells.  An event
      handler reads the cells of the render it was created in and queues
      updates with the setters; the next render sees all of them.  A handler
      is therefore a function from the state it reads to the state of the
      next render, and a setter is a record update.
    - JavaScript numbers that hold positions, page identifiers, timestamps
      and seek times are integers ([Z]); array indices and the two step
      counters are naturals.
    - An object reference taken out of an array ([find], [reduce], [sort],
      [pages[i]]) is the pair of its index and its value, so that the test
      [r === nextRequest] is the comparison of two indices.
    - [Date.now()] is an input of the step that reads it: the clock is not
      under the control of the component, and two readings may be equal.
    - Of the timers, the one that completes a replacement 500 ms after
      [handleNext] is modelled, as the callback that [handleNext] returns; a
      step of the simulation runs it before the next call.  The timers that
      switch [isNarrating] off after 3 s are not modelled.  The intervals of
      the automatic play, which call the same two handlers, are modelled
      apart, with the controls of the two components. *)

From stdpp Require Import numbers list.

(** ** Array operations of the JavaScript runtime *)

Module JsArray.

Section ops.
Context {A : Type}.

(** An array seen as the list of its (index, element) pairs. *)
Fixpoint entries_from (k : nat) (l : list A) : list (nat * A) :=
  match l with
  | [] => []
  | x :: l' => (k, x) :: entries_from (S k) l'
  end.

Definition entries (l : list A) : list (nat * A) := entries_from 0 l.

(** [arr.map((x, i) => f(i, x))]. *)
Definition mapi {B : Type} (f : nat -> A -> B) (l : list A) : list B :=
  map (fun e : nat * A => f e.1 e.2) (entries l).

(** [arr.sort(cmp)]: the sort is stable; [x] goes in front of the first
    element that does not have to precede it. *)
Fixpoint sort_insert (cmp : A -> A -> Z) (x : A) (l : list A) : list A :=
  match l with
  | [] => [x]
  | y :: l' =>
      if (cmp x y <=? 0)%Z then x :: y :: l' else y :: sort_insert cmp x l'
  end.

Fixpoint sort (cmp : A -> A -> Z) (l : list A) : list A :=
  match l with
  | [] => []
  | x :: l' => sort_insert cmp x (sort cmp l')
  end.
End ops.

End JsArray.

(** ** src/components/DiskScheduling.tsx *)

Module DiskScheduling.
Import JsArray.
Local Open Scope Z_scope.

Record Request := mkRequest { position : Z; isServed : bool }.

Inductive Algorithm := FCFS | SSTF | SCAN.
Inductive Direction := up | down.

(** The [useState] cells of the component. *)
Record State := mkState {
  requests : list Request;
  headPosition : Z;
  algorithm : Algorithm;
  isPlaying : bool;
  direction : Direction;
  totalSeekTime : Z
}.

Definition setRequests (v : list Request) (s : State) : State :=
  mkState v (headPosition s) (algorithm s) (isPlaying s) (direction s)
          (totalSeekTime s).
Definition setHeadPosition (v : Z) (s : State) : State :=
  mkState (requests s) v (algorithm s) (isPlaying s) (direction s)
          (totalSeekTime s).
Definition setAlgorithm (v : Algorithm) (s : State) : State :=
  mkState (requests s) (headPosition s) v (isPlaying s) (direction s)
          (totalSeekTime s).
Definition setIsPlaying (v : bool) (s : State) : State :=
  mkState (requests s) (headPosition s) (algorithm s) v (direction s)
          (totalSeekTime s).
Definition setDirection (v : Direction) (s : State) : State :=
  mkState (requests s) (headPosition s) (algorithm s) (isPlaying s) v
          (totalSeekTime s).
Definition setTotalSeekTime (v : Z) (s : State) : State :=
  mkState (requests s) (headPosition s) (algorithm s) (isPlaying s)
          (direction s) v.

Definition diskSize : Z := 200.

Definition initialRequests : list Request :=
  map (fun p => mkRequest p false) [98; 183; 37; 122; 14; 124; 65; 67].

Definition initialState : State :=
  mkState initialRequests 50 FCFS false up 0.

(** A reference to an element of [requests]. *)
Definition Ref : Type := nat * Request.

Definition unserved (r : Ref) : bool := negb (isServed r.2).

(** The callback of the SSTF [reduce]. *)
Definition closer (headPosition : Z) (closest : option Ref) (current : Ref)
  : option Ref :=
  match closest with
  | None => Some current
  | Some c =>
      if Z.abs (position current.2 - headPosition)
         <? Z.abs (position c.2 - headPosition)
      then Some current else Some c
  end.

Definition ascending (a b : Ref) : Z := position a.2 - position b.2.
Definition descending (a b : Ref) : Z := position b.2 - position a.2.

Definition reset (s : State) : State :=
  setDirection up
    (setIsPlaying false
       (setTotalSeekTime 0
          (setHeadPosition 50
             (setRequests
                (map (fun r => mkRequest (position r) false) (requests s))
                s)))).

(** [getNextRequest] returns the selected request, if any, together with the
    state in which its call of [setDirection] (SCAN) has been queued. *)
Definition getNextRequest (s : State) : option Ref * State :=
  match algorithm s with
  | FCFS => (List.find unserved (entries (requests s)), s)
  | SSTF =>
      (fold_left (closer (headPosition s))
         (List.filter unserved (entries (requests s))) None, s)
  | SCAN =>
      let unservedRequests := List.filter unserved (entries (requests s)) in
      match direction s with
      | up =>
          let nextUp :=
            head (sort ascending
                    (List.filter
                       (fun r : Ref => headPosition s <=? position r.2)
                       unservedRequests)) in
          match nextUp with
          | Some r => (Some r, s)
          | None =>
              (head (sort descending
                       (List.filter
                          (fun r : Ref => position r.2 <? headPosition s)
                          unservedRequests)),
               setDirection down s)
          end
      | down =>
          let nextDown :=
            head (sort descending
                    (List.filter
                       (fun r : Ref => position r.2 <=? headPosition s)
                       unservedRequests)) in
          match nextDown with
          | Some r => (Some r, s)
          | None =>
              (head (sort ascending
                       (List.filter
                          (fun r : Ref => headPosition s <? position r.2)
                          unservedRequests)),
               setDirection up s)
          end
      end
  end.

(** [requests.map((r) => (r === nextRequest ? { ...r, isServed: true } : r))]. *)
Definition markServed (nextRequest : Ref) (rs : list Request) : list Request :=
  mapi (fun i r =>
          if Nat.eqb i nextRequest.1 then mkRequest (position r) true else r)
       rs.

Definition moveHead (s : State) : State :=
  let '(nextRequest, s1) := getNextRequest s in
  match nextRequest with
  | Some r =>
      let seekTime := Z.abs (position r.2 - headPosition s) in
      setRequests (markServed r (requests s))
        (setHeadPosition (position r.2)
           (setTotalSeekTime (totalSeekTime s1 + seekTime) s1))
  | None => setIsPlaying false s1
  end.

(** [n] consecutive calls of [moveHead], one per render. *)
Fixpoint moveHeads (n : nat) (s : State) : State :=
  match n with
  | O => s
  | S n' => moveHeads n' (moveHead s)
  end.

(** The head positions seen by [n] consecutive calls, the first one
    included: [n + 1] positions. *)
Fixpoint headTrace (n : nat) (s : State) : list Z :=
  match n with
  | O => [headPosition s]
  | S n' => headPosition s :: headTrace n' (moveHead s)
  end.

(** Sum of the distances between consecutive positions of a trace. *)
Fixpoint travel (l : list Z) : Z :=
  match l with
  | a :: (b :: _) as l' => Z.abs (b - a) + travel l'
  | _ => 0
  end.

Definition allServed (s : State) : Prop :=
  Forall (fun r => isServed r = true) (requests s).

Definition flip (d : Direction) : Direction :=
  match d with up => down | down => up end.

End DiskScheduling.

(** ** src/components/PageReplacement.tsx *)

Module PageReplacement.
Import JsArray.
Local Open Scope Z_scope.

Record Page := mkPage {
  id : Z;
  timestamp : Z;
  isEntering : option bool;
  isLeaving : option bool;
  prevValue : option Z
}.

Inductive Algorithm := FIFO | LRU.

(** The texts shown to the user, by the template that produces them. *)
Inductive Narration :=
| Blank
| Welcome (alg : Algorithm) (newPage : Z)
| FaultFIFO (newPage : Z)
| FaultLRU (newPage : Z)
| HitLRU (newPage : Z)
| HitFIFO (newPage : Z)
| Completed
| SelectAndPlay.

(** The [useState] cells of the component. *)
Record State := mkState {
  pages : list Page;
  sequence : list Z;
  currentStep : nat;
  isPlaying : bool;
  algorithm : Algorithm;
  pageFaults : nat;
  narration : Narration;
  isNarrating : bool
}.

Definition setPages (v : list Page) (s : State) : State :=
  mkState v (sequence s) (currentStep s) (isPlaying s) (algorithm s)
          (pageFaults s) (narration s) (isNarrating s).
Definition setCurrentStep (v : nat) (s : State) : State :=
  mkState (pages s) (sequence s) v (isPlaying s) (algorithm s)
          (pageFaults s) (narration s) (isNarrating s).
Definition setIsPlaying (v : bool) (s : State) : State :=
  mkState (pages s) (sequence s) (currentStep s) v (algorithm s)
          (pageFaults s) (narration s) (isNarrating s).
Definition setAlgorithm (v : Algorithm) (s : State) : State :=
  mkState (pages s) (sequence s) (currentStep s) (isPlaying s) v
          (pageFaults s) (narration s) (isNarrating s).
Definition setPageFaults (v : nat) (s : State) : State :=
  mkState (pages s) (sequence s) (currentStep s) (isPlaying s) (algorithm s)
          v (narration s) (isNarrating s).
Definition setNarration (v : Narration) (s : State) : State :=
  mkState (pages s) (sequence s) (currentStep s) (isPlaying s) (algorithm s)
          (pageFaults s) v (isNarrating s).
Definition setIsNarrating (v : bool) (s : State) : State :=
  mkState (pages s) (sequence s) (currentStep s) (isPlaying s) (algorithm s)
          (pageFaults s) (narration s) v.

Definition frameSize : nat := 3.

Definition initialSequence : list Z := [1; 3; 0; 3; 5; 6; 3].

Definition initialState : State :=
  mkState [] initialSequence 0 false FIFO 0 Blank false.

Definition getNarration (algorithm : Algorithm) (step : nat) (newPage : Z)
    (isPageFault : bool) : Narration :=
  if Nat.eqb step 0 then Welcome algorithm newPage
  else if isPageFault then
    match algorithm with
    | FIFO => FaultFIFO newPage
    | LRU => FaultLRU newPage
    end
  else
    match algorithm with
    | LRU => HitLRU newPage
    | FIFO => HitFIFO newPage
    end.

(** [pages.some((p) => p.id === newPage)]. *)
Definition resident (newPage : Z) (ps : list Page) : bool :=
  existsb (fun p => id p =? newPage) ps.

(** [pages.reduce((min, p, i, arr) =>
       (p.timestamp < arr[min].timestamp ? i : min), 0)].
    [arr[min]] is always an element: [min] is 0 or an index already
    visited, and the callback only runs on a non-empty array. *)
Definition olderThan (arr : list Page) (min : nat) (e : nat * Page) : nat :=
  match arr !! min with
  | Some q => if timestamp e.2 <? timestamp q then e.1 else min
  | None => min
  end.

Definition leastRecent (ps : list Page) : nat :=
  fold_left (olderThan ps) (entries ps) 0%nat.

Definition enteringPage (newPage now : Z) (prev : option Z) : Page :=
  mkPage newPage now (Some true) None prev.

Definition leaving (p : Page) : Page :=
  mkPage (id p) (timestamp p) (isEntering p) (Some true) (prevValue p).

Definition notLeaving (p : Page) : Page :=
  mkPage (id p) (timestamp p) (isEntering p) (Some false) (prevValue p).

Definition touch (now : Z) (p : Page) : Page :=
  mkPage (id p) now (isEntering p) (isLeaving p) (prevValue p).

(** The callback that [handleNext] hands to [setTimeout(..., 500)] when a
    page has to leave. *)
Inductive Timeout :=
| FifoReplace (newPage : Z) (oldPage : Page)
| LruReplace (leastRecentIndex : nat) (newPage : Z) (oldPage : Page).

(** [handleNext], at a moment when [Date.now()] is [now]: the state of the
    next render, and the callback left with [setTimeout], if any.  The
    branch [None] of the first [match] is the [else] of
    [if (currentStep < sequence.length)].  With [pages.length >= frameSize]
    both [pages[0]] and [pages[leastRecentIndex]] exist. *)
Definition handleNext (now : Z) (s : State) : State * option Timeout :=
  match sequence s !! currentStep s with
  | Some newPage =>
      let isPageFault := negb (resident newPage (pages s)) in
      let s1 :=
        setIsNarrating true
          (setNarration
             (getNarration (algorithm s) (currentStep s) newPage isPageFault)
             s) in
      let '(s2, t) :=
        if isPageFault then
          let s2 := setPageFaults (S (pageFaults s1)) s1 in
          if (length (pages s) <? frameSize)%nat then
            (setPages (pages s2 ++ [enteringPage newPage now None]) s2, None)
          else
            match algorithm s with
            | FIFO =>
                match pages s !! 0%nat with
                | Some oldPage =>
                    (setPages
                       (mapi (fun i p => if Nat.eqb i 0 then leaving p else p)
                             (pages s2)) s2,
                     Some (FifoReplace newPage oldPage))
                | None => (s2, None)
                end
            | LRU =>
                let leastRecentIndex := leastRecent (pages s) in
                match pages s !! leastRecentIndex with
                | Some oldPage =>
                    (setPages
                       (mapi (fun i p =>
                                if Nat.eqb i leastRecentIndex
                                then leaving p else p)
                             (pages s2)) s2,
                     Some (LruReplace leastRecentIndex newPage oldPage))
                | None => (s2, None)
                end
            end
        else
          match algorithm s with
          | LRU =>
              (setPages
                 (map (fun p => if id p =? newPage then touch now p else p)
                      (pages s1)) s1,
               None)
          | FIFO => (s1, None)
          end in
      (setCurrentStep (S (currentStep s2)) s2, t)
  | None => (setIsNarrating true (setNarration Completed s), None)
  end.

(** The callback of [setTimeout], run when [Date.now()] is [now].  The
    assignment [updatedPages[leastRecentIndex] = ...] is made at an index of
    the array, where it is the update of a list in place. *)
Definition runTimeout (now : Z) (t : Timeout) (s : State) : State :=
  match t with
  | FifoReplace newPage oldPage =>
      setPages
        (map notLeaving (drop 1 (pages s))
           ++ [enteringPage newPage now (Some (id oldPage))]) s
  | LruReplace leastRecentIndex newPage oldPage =>
      setPages
        (<[leastRecentIndex := enteringPage newPage now (Some (id oldPage))]>
           (pages s)) s
  end.

(** One step of the simulation: [handleNext] and, when a page leaves, the
    replacement that follows it.  Exactly one of the two reads the clock;
    [now] is that reading. *)
Definition step (now : Z) (s : State) : State :=
  let '(s1, t) := handleNext now s in
  match t with
  | Some t => runTimeout now t s1
  | None => s1
  end.

Definition reset (s : State) : State :=
  setIsNarrating true
    (setNarration SelectAndPlay
       (setIsPlaying false
          (setPageFaults 0 (setCurrentStep 0 (setPages [] s))))).

(** What the user can do: the button of the next step, the button of the
    reset, and the buttons of the algorithms
    ([setAlgorithm(alg); reset()]). *)
Inductive Event :=
| Next (now : Z)
| Reset
| Select (alg : Algorithm).

Definition fire (e : Event) (s : State) : State :=
  match e with
  | Next now => step now s
  | Reset => reset s
  | Select alg => reset (setAlgorithm alg s)
  end.

Definition run (s : State) (es : list Event) : State :=
  fold_left (fun s e => fire e s) es s.


(** Whether the step taken in state [s] is a page fault. *)
Definition isPageFault (s : State) : bool :=
  match sequence s !! currentStep s with
  | Some newPage => negb (resident newPage (pages s))
  | None => false
  end.

(** The fault flags of the steps taken at the readings [nows]. *)
Fixpoint faults (nows : list Z) (s : State) : list bool :=
  match nows with
  | [] => []
  | now :: nows' => isPageFault s :: faults nows' (step now s)
  end.



Definition ids (s : State) : list Z := map id (pages s).
Definition timestamps (s : State) : list Z := map timestamp (pages s).

End PageReplacement.

(** ** Vocabulary of the statements *)

(** [r] is the first element of [l] at which [key] is minimal: every
    element in front of it has a strictly larger key, none behind it has a
    smaller one. *)
Definition firstMin {A : Type} (key : A -> Z) (l : list A) (r : A) : Prop :=
  exists l1 l2,
    l = l1 ++ r :: l2 /\
    (forall x, x ∈ l1 -> (key r < key x)%Z) /\
    (forall x, x ∈ l2 -> (key r <= key x)%Z).

Module DiskVocabulary.
Import DiskScheduling.
Local Open Scope Z_scope.

(** The seek distance of a request from a head position. *)
Definition distance (head : Z) (r : Request) : Z := Z.abs (position r - head).

(** Request [r] sits at index [i] of the array and has not been served. *)
Definition pending (s : State) (i : nat) (r : Request) : Prop :=
  requests s !! i = Some r /\ isServed r = false.

Definition ahead (s : State) (i : nat) (r : Request) : Prop :=
  pending s i r /\ headPosition s <= position r.

Definition behind (s : State) (i : nat) (r : Request) : Prop :=
  pending s i r /\ position r < headPosition s.

(** The simulation as the buttons SSTF and SCAN leave it:
    [setAlgorithm(alg); reset()]. *)
Definition sstfStart : State := reset (setAlgorithm SSTF initialState).
Definition scanStart : State := reset (setAlgorithm SCAN initialState).

(** The SCAN simulation after six steps: the head has reached 183 and the
    requests at 37 and 14 are still pending. *)
Definition scanTop : State := moveHeads 6 scanStart.

(** A SCAN simulation whose requests have all been served. *)
Definition scanDone : State := moveHeads 8 scanStart.

End DiskVocabulary.


Module PageVocabulary.
Import PageReplacement.
Local Open Scope Z_scope.

(** A simulation in its empty state, for a reference sequence and an
    algorithm. *)
Definition start (refs : list Z) (alg : Algorithm) : State :=
  mkState [] refs 0 false alg 0 Blank false.

(** The step taken in state [s] references [newPage], which is not
    resident, while every frame is occupied. *)
Definition evicting (s : State) (newPage : Z) : Prop :=
  sequence s !! currentStep s = Some newPage /\
  resident newPage (pages s) = false /\
  (frameSize <= length (pages s))%nat.


(** The resident set respects the capacity and holds no page twice. *)
Definition residentSetOk (s : State) : Prop :=
  (length (pages s) <= frameSize)%nat /\ NoDup (ids s).




(** FIFO on the default references, after the steps that reference 1, 3,
    0 and 3. *)
Definition fifoFull : State :=
  run (start initialSequence FIFO) (map Next [1; 2; 3; 4]).

End PageVocabulary.

(** ** The controls around the two handlers *)

Module DiskControls.
Import JsArray DiskScheduling DiskVocabulary.
Local Open Scope Z_scope.

(** [disabled={!requests.some((r) => !r.isServed)}] on the button of the
    next step. *)
Definition nextDisabled (s : State) : bool :=
  negb (existsb (fun r => negb (isServed r)) (requests s)).

(** [onClick={() => setIsPlaying(!isPlaying)}]. *)
Definition togglePlay (s : State) : State :=
  setIsPlaying (negb (isPlaying s)) s.

(** [onClick={() => { setAlgorithm(alg); reset(); }}]. *)
Definition selectAlgorithm (alg : Algorithm) (s : State) : State :=
  reset (setAlgorithm alg s).

(** The effect of the automatic play: while [isPlaying], an interval calls
    [moveHead].  Every call changes [requests] or [isPlaying], which are
    dependencies of the effect, so the interval is installed again with the
    handler of the new render: one firing of the interval is one call of
    [moveHead] on the current state. *)
Definition tick (s : State) : State :=
  if isPlaying s then moveHead s else s.

Fixpoint ticks (n : nat) (s : State) : State :=
  match n with
  | O => s
  | S n' => ticks n' (tick s)
  end.

(** The number of requests not served yet. *)
Definition pendingCount (s : State) : nat :=
  length (List.filter (fun r => negb (isServed r)) (requests s)).

Definition atOrBelow (s : State) (i : nat) (r : Request) : Prop :=
  pending s i r /\ position r <= headPosition s.

Definition above (s : State) (i : nat) (r : Request) : Prop :=
  pending s i r /\ headPosition s < position r.

(** The head and every request lie between [lo] and [hi]. *)
Definition within (lo hi : Z) (s : State) : Prop :=
  lo <= headPosition s <= hi /\
  Forall (fun r => lo <= position r <= hi) (requests s).

(** Some request strictly below, strictly above the head is pending. *)
Definition pendingBelow (s : State) : bool :=
  existsb (fun r => negb (isServed r) && (position r <? headPosition s))
          (requests s).
Definition pendingAbove (s : State) : bool :=
  existsb (fun r => negb (isServed r) && (headPosition s <? position r))
          (requests s).

(** The distance that SCAN may still have to travel between [lo] and
    [hi]: to the end of the sweep under way and, if a request is pending
    behind the head, back over the whole range. *)
Definition sweepBudget (lo hi : Z) (s : State) : Z :=
  if nextDisabled s then 0
  else
    match direction s with
    | up => (hi - headPosition s) + (if pendingBelow s then hi - lo else 0)
    | down => (headPosition s - lo) + (if pendingAbove s then hi - lo else 0)
    end.

(** The requests served are exactly the first [k] of the array. *)
Definition servedPrefix (k : nat) (s : State) : Prop :=
  forall j r, requests s !! j = Some r -> (isServed r = true <-> (j < k)%nat).

(** A SCAN simulation going down with only requests above the head. *)
Definition scanBottom : State :=
  setHeadPosition 10 (setDirection down scanStart).

End DiskControls.

Module PageControls.
Import JsArray PageReplacement PageVocabulary.
Local Open Scope Z_scope.

(** [disabled={currentStep >= sequence.length}] on the button of the next
    step. *)
Definition nextDisabled (s : State) : bool :=
  (length (sequence s) <=? currentStep s)%nat.

(** [onClick={() => setIsPlaying(!isPlaying)}]. *)
Definition togglePlay (s : State) : State :=
  setIsPlaying (negb (isPlaying s)) s.


(** No clock reading is earlier than the one before it. *)
Fixpoint nondecreasing (l : list Z) : Prop :=
  match l with
  | a :: (b :: _) as l' => a <= b /\ nondecreasing l'
  | _ => True
  end.

(** [handleNext] as the closure of an earlier render runs it: what the
    handler reads from its own [pages] it reads from [seen], the array of
    that render, while the updaters passed to [setPages] work on the
    current array, [pages s].  [currentStep], [sequence] and [algorithm]
    are those of the current state: the effect that installs the handler
    depends on [currentStep], and the other two change only with a reset. *)
Definition handleNextSeeing (seen : list Page) (now : Z) (s : State)
  : State * option Timeout :=
  match sequence s !! currentStep s with
  | Some newPage =>
      let isPageFault := negb (resident newPage seen) in
      let s1 :=
        setIsNarrating true
          (setNarration
             (getNarration (algorithm s) (currentStep s) newPage isPageFault)
             s) in
      let '(s2, t) :=
        if isPageFault then
          let s2 := setPageFaults (S (pageFaults s1)) s1 in
          if (length seen <? frameSize)%nat then
            (setPages (pages s2 ++ [enteringPage newPage now None]) s2, None)
          else
            match algorithm s with
            | FIFO =>
                match seen !! 0%nat with
                | Some oldPage =>
                    (setPages
                       (mapi (fun i p => if Nat.eqb i 0 then leaving p else p)
                             (pages s2)) s2,
                     Some (FifoReplace newPage oldPage))
                | None => (s2, None)
                end
            | LRU =>
                let leastRecentIndex := leastRecent seen in
                match seen !! leastRecentIndex with
                | Some oldPage =>
                    (setPages
                       (mapi (fun i p =>
                                if Nat.eqb i leastRecentIndex
                                then leaving p else p)
                             (pages s2)) s2,
                     Some (LruReplace leastRecentIndex newPage oldPage))
                | None => (s2, None)
                end
            end
        else
          match algorithm s with
          | LRU =>
              (setPages
                 (map (fun p => if id p =? newPage then touch now p else p)
                      (pages s1)) s1,
               None)
          | FIFO => (s1, None)
          end in
      (setCurrentStep (S (currentStep s2)) s2, t)
  | None => (setIsNarrating true (setNarration Completed s), None)
  end.

(** The automatic play.  The effect depends on [isPlaying] and
    [currentStep] only: it installs the interval, with the [handleNext] of
    the render that follows a step, when [isPlaying] holds and the sequence
    is not consumed.  The replacement that a timeout makes 500 ms later
    renders again but does not run the effect, so the interval, which fires
    after 3.5 s, still calls the handler of the earlier render.  The state
    of the play is the current state and the array [pages] that the
    installed handler has captured. *)
Definition Playing : Type := State * list Page.

(** The play button, pressed while nothing is pending. *)
Definition play (s : State) : Playing := (setIsPlaying true s, pages s).

(** One firing of the interval, followed by the timeout it may leave. *)
Definition autoTick (now : Z) (a : Playing) : Playing :=
  let '(s, seen) := a in
  if isPlaying s && (currentStep s <? length (sequence s))%nat then
    let '(s1, t) := handleNextSeeing seen now s in
    (match t with
     | Some t => runTimeout now t s1
     | None => s1
     end,
     pages s1)
  else a.

Definition autoRun (a : Playing) (nows : list Z) : Playing :=
  fold_left (fun a now => autoTick now a) nows a.

(** The frame that the step taken in state [s] empties when it evicts. *)
Definition victimSlot (s : State) : nat :=
  match algorithm s with
  | FIFO => 0%nat
  | LRU => leastRecent (pages s)
  end.

(** The narration announces a fault. *)
Definition announcesFault (n : Narration) : bool :=
  match n with
  | FaultFIFO _ | FaultLRU _ => true
  | _ => false
  end.

(** LRU on the default references, after the steps that reference 1, 3,
    0 and 3. *)
Definition lruFull : State :=
  run (start initialSequence LRU) (map Next [1; 2; 3; 4]).


(** The default simulation under FIFO, played from the state that five
    presses of the button leave: the frames hold 3, 0, 5 and the references
    6 and 3 remain. *)
Definition staleStart : State :=
  setIsPlaying true (run initialState (map Next [1; 2; 3; 4; 5])).


(** LRU on the default references, played for five firings. *)
Definition lruPlayed : Playing :=
  autoRun (play (start initialSequence LRU)) [1; 2; 3; 4; 5].

(** The default simulation, under FIFO, with the play button pressed. *)
Definition autoStart : Playing := play initialState.

(** Whether the firing of the interval counts a fault in the state [a] of
    the play: the handler tests the reference against the array it has
    captured. *)
Definition autoFault (a : Playing) : bool :=
  isPlaying a.1 &&
  match sequence a.1 !! currentStep a.1 with
  | Some newPage => negb (resident newPage a.2)
  | None => false
  end.

(** The fault flags of the firings made at the readings [nows]. *)
Fixpoint autoFaults (nows : list Z) (a : Playing) : list bool :=
  match nows with
  | [] => []
  | now :: nows' => autoFault a :: autoFaults nows' (autoTick now a)
  end.



End PageControls.

(** ** Facts about the array operations *)

Module JsArrayFacts.
Import JsArray.
Local Open Scope Z_scope.

Section facts.
Context {A : Type}.
Implicit Types (l : list A) (k i : nat) (x : A) (e : nat * A).

Lemma elem_of_entries_from l k i x :
  (i, x) ∈ entries_from k l <-> (k <= i)%nat /\ l !! (i - k)%nat = Some x.
Proof.
  revert k. induction l as [|y l IH]; intros k; simpl.
  - split; [intros H; inversion H | intros [_ H]; discriminate].
  - rewrite elem_of_cons, IH. split.
    + intros [Heq | [Hle Hl]].
      * inversion Heq; subst. split; [lia|]. by rewrite Nat.sub_diag.
      * split; [lia|]. replace (i - k)%nat with (S (i - S k)) by lia. done.
    + intros [Hle Hl]. destruct (decide (i = k)) as [->|Hne].
      * rewrite Nat.sub_diag in Hl. left. simpl in Hl. congruence.
      * right. split; [lia|].
        replace (i - k)%nat with (S (i - S k)) in Hl by lia. done.
Qed.

Lemma elem_of_entries l i x : (i, x) ∈ entries l <-> l !! i = Some x.
Proof.
  unfold entries. rewrite elem_of_entries_from, Nat.sub_0_r.
  split; [tauto | split; [lia | done]].
Qed.

Lemma elem_of_List_filter {B : Type} (P : B -> bool) (l : list B) (b : B) :
  b ∈ List.filter P l <-> b ∈ l /\ P b = true.
Proof. rewrite !list_elem_of_In. apply filter_In. Qed.

(** The entries of an array come in the order of their indices, and so
    does any selection of them. *)
Lemma entries_from_split (P : nat * A -> bool) l k (l1 l2 : list (nat * A)) e :
  List.filter P (entries_from k l) = l1 ++ e :: l2 ->
  (forall e', e' ∈ l1 -> (k <= e'.1 < e.1)%nat) /\
  (k <= e.1)%nat /\
  (forall e', e' ∈ l2 -> (e.1 < e'.1)%nat).
Proof.
  revert k l1. induction l as [|y l IH]; intros k l1 Heq; simpl in Heq.
  - destruct l1; discriminate.
  - destruct (P (k, y)).
    + destruct l1 as [|e1 l1]; simpl in Heq; inversion Heq; subst.
      * split; [intros e' H; inversion H|]. split; [simpl; lia|].
        intros [j z] Hin. simpl.
        apply elem_of_List_filter in Hin as [Hin _].
        apply elem_of_entries_from in Hin. lia.
      * destruct (IH _ _ H1) as (H1' & He & H2'). simpl.
        split; [|split; [lia | done]].
        intros e' [->|Hin]%elem_of_cons; simpl; [lia|].
        specialize (H1' _ Hin). lia.
    + destruct (IH _ _ Heq) as (H1' & He & H2').
      split; [|split; [lia | done]].
      intros e' Hin. specialize (H1' _ Hin). lia.
Qed.

Lemma firstMin_min {B : Type} (key : B -> Z) (l : list B) (r x : B) :
  firstMin key l r -> x ∈ l -> key r <= key x.
Proof.
  intros (l1 & l2 & -> & H1 & H2) Hin.
  apply elem_of_app in Hin as [Hin | Hin]; [specialize (H1 _ Hin); lia|].
  apply elem_of_cons in Hin as [-> | Hin]; [lia | by apply H2].
Qed.

Lemma firstMin_elem_of {B : Type} (key : B -> Z) (l : list B) (r : B) :
  firstMin key l r -> r ∈ l.
Proof.
  intros (l1 & l2 & -> & _). apply elem_of_app. right. apply elem_of_cons. by left.
Qed.

(** The head of a stably sorted array is the first minimum of the array. *)
Lemma sort_head (cmp : A -> A -> Z) (key : A -> Z) l :
  (forall a b, cmp a b = key a - key b) ->
  match head (sort cmp l) with
  | None => l = []
  | Some r => firstMin key l r
  end.
Proof.
  intros Hcmp. induction l as [|x l IH]; simpl; [done|].
  destruct (sort cmp l) as [|y ys]; simpl in *.
  - subst l. exists [], []. split; [done|]. split; intros ? H; inversion H.
  - destruct (Z.leb_spec (cmp x y) 0) as [Hle | Hgt]; simpl;
      rewrite Hcmp in *.
    + exists [], l. split; [done|]. split; [intros ? H; inversion H|].
      intros z Hz. pose proof (firstMin_min _ _ _ _ IH Hz). lia.
    + destruct IH as (l1 & l2 & -> & H1 & H2).
      exists (x :: l1), l2. split; [done|]. split; [|done].
      intros z [->|Hz]%elem_of_cons; [lia | by apply H1].
Qed.

(** A left-to-right scan that keeps the current element when the next one
    is not strictly smaller ends on the first minimum. *)
Lemma reduce_firstMin (key : A -> Z) (f : option A -> A -> option A) l :
  (forall x, f None x = Some x) ->
  (forall c x, f (Some c) x = if key x <? key c then Some x else Some c) ->
  match fold_left f l None with
  | None => l = []
  | Some r => firstMin key l r
  end.
Proof.
  intros HN HS. induction l as [|y l IH] using rev_ind; simpl; [done|].
  rewrite fold_left_app. simpl.
  destruct (fold_left f l None) as [c|].
  - rewrite HS. destruct IH as (l1 & l2 & -> & H1 & H2).
    destruct (Z.ltb_spec (key y) (key c)) as [Hlt | Hge].
    + exists (l1 ++ c :: l2), []. split; [done|].
      split; [|intros ? H; inversion H].
      intros z Hz. apply elem_of_app in Hz as [Hz | Hz].
      * specialize (H1 _ Hz). lia.
      * apply elem_of_cons in Hz as [-> | Hz]; [lia|].
        specialize (H2 _ Hz). lia.
    + exists l1, (l2 ++ [y]). split; [by rewrite <- app_assoc|].
      split; [done|].
      intros z [Hz | Hz]%elem_of_app; [by apply H2|].
      apply list_elem_of_singleton in Hz as ->. lia.
  - subst l. rewrite HN. exists [], []. split; [done|].
    split; intros ? H; inversion H.
Qed.

(** What being the first minimum of a selection of the entries of an
    array means for the indices of the array. *)
Lemma firstMin_entries (P : nat * A -> bool) (key : nat * A -> Z) l i x :
  firstMin key (List.filter P (entries l)) (i, x) ->
  l !! i = Some x /\ P (i, x) = true /\
  forall j y, l !! j = Some y -> P (j, y) = true ->
    key (i, x) <= key (j, y) /\
    (key (j, y) = key (i, x) -> (i <= j)%nat).
Proof.
  intros Hmin. pose proof (firstMin_elem_of _ _ _ Hmin) as Hin.
  apply elem_of_List_filter in Hin as [Hin HP].
  apply elem_of_entries in Hin. split; [done|]. split; [done|].
  intros j y Hj HPj.
  assert (Hjin : (j, y) ∈ List.filter P (entries l)).
  { apply elem_of_List_filter. split; [by apply elem_of_entries | done]. }
  split; [by apply (firstMin_min _ _ _ _ Hmin)|].
  destruct Hmin as (l1 & l2 & Heq & H1 & H2).
  destruct (entries_from_split _ _ _ _ _ _ Heq) as (Hl1 & _ & Hl2).
  rewrite Heq in Hjin.
  apply elem_of_app in Hjin as [Hjin | Hjin].
  - specialize (H1 _ Hjin). lia.
  - apply elem_of_cons in Hjin as [Hjeq | Hjin].
    + inversion Hjeq; subst. lia.
    + specialize (Hl2 _ Hjin). simpl in Hl2. lia.
Qed.

Lemma lookup_mapi {B : Type} (f : nat -> A -> B) l i :
  mapi f l !! i = f i <$> l !! i.
Proof.
  unfold mapi, entries.
  assert (H : forall k, map (fun e : nat * A => f e.1 e.2) (entries_from k l) !! i
                   = f (k + i)%nat <$> l !! i).
  { revert i. induction l as [|y l IH]; intros i k; simpl; [done|].
    destruct i as [|i]; simpl.
    - by rewrite Nat.add_0_r.
    - rewrite IH. by replace (S k + i)%nat with (k + S i)%nat by lia. }
  apply (H 0%nat).
Qed.

Lemma length_mapi {B : Type} (f : nat -> A -> B) l :
  length (mapi f l) = length l.
Proof.
  unfold mapi, entries. rewrite length_map. generalize 0%nat.
  induction l as [|y l IH]; intros k; simpl; [done|]. by rewrite IH.
Qed.
End facts.

End JsArrayFacts.

(** ** Disk scheduling *)

Module DiskSchedulingSpec.
Import JsArray JsArrayFacts DiskScheduling DiskVocabulary.
Local Open Scope Z_scope.

Lemma setDirection_same s : setDirection (direction s) s = s.
Proof. by destruct s. Qed.

(** [getNextRequest] queues at most an update of [direction]. *)
Lemma getNextRequest_frame s :
  exists d, (getNextRequest s).2 = setDirection d s.
Proof.
  unfold getNextRequest.
  destruct (algorithm s); simpl;
    try (exists (direction s); by rewrite setDirection_same).
  destruct (direction s) eqn:Hd.
  - destruct (head _); simpl; [exists up; by rewrite <- Hd, setDirection_same|].
    by exists down.
  - destruct (head _); simpl;
      [exists down; by rewrite <- Hd, setDirection_same|].
    by exists up.
Qed.

Lemma filter_unserved_allServed s :
  allServed s -> List.filter unserved (entries (requests s)) = [].
Proof.
  unfold allServed, entries. generalize 0%nat.
  induction (requests s) as [|r rs IH]; intros k Hall; simpl; [done|].
  inversion Hall as [|? ? Hr Hrs]; subst.
  unfold unserved at 1. simpl. rewrite Hr. simpl. by apply IH.
Qed.

Lemma find_unserved_allServed s :
  allServed s -> List.find unserved (entries (requests s)) = None.
Proof.
  unfold allServed, entries. generalize 0%nat.
  induction (requests s) as [|r rs IH]; intros k Hall; simpl; [done|].
  inversion Hall as [|? ? Hr Hrs]; subst.
  unfold unserved at 1. simpl. rewrite Hr. simpl. by apply IH.
Qed.

(** With nothing left to serve, no policy selects a request; SCAN still
    turns the head around. *)
Lemma getNextRequest_allServed s :
  allServed s ->
  getNextRequest s =
    (None,
     match algorithm s with
     | SCAN => setDirection (flip (direction s)) s
     | _ => s
     end).
Proof.
  intros Hall. unfold getNextRequest.
  destruct (algorithm s).
  - by rewrite find_unserved_allServed.
  - by rewrite filter_unserved_allServed.
  - rewrite filter_unserved_allServed by done. by destruct (direction s).
Qed.

Lemma moveHead_allServed s :
  allServed s ->
  moveHead s =
    setIsPlaying false
      match algorithm s with
      | SCAN => setDirection (flip (direction s)) s
      | _ => s
      end.
Proof. intros Hall. unfold moveHead. by rewrite getNextRequest_allServed. Qed.

Lemma moveHead_allServed_frame s :
  allServed s ->
  requests (moveHead s) = requests s /\
  headPosition (moveHead s) = headPosition s /\
  totalSeekTime (moveHead s) = totalSeekTime s /\
  algorithm (moveHead s) = algorithm s /\
  isPlaying (moveHead s) = false /\
  allServed (moveHead s).
Proof.
  intros Hall. rewrite moveHead_allServed by done.
  unfold allServed in *.
  destruct (algorithm s) eqn:Halg; simpl; rewrite ?Halg; auto 10.
Qed.

(** One call of [moveHead] adds to the total the distance that the head
    travels during the call. *)
Lemma moveHead_cost s :
  totalSeekTime (moveHead s) =
  totalSeekTime s + Z.abs (headPosition (moveHead s) - headPosition s).
Proof.
  unfold moveHead.
  destruct (getNextRequest_frame s) as [d Hd].
  destruct (getNextRequest s) as [[r|] s1]; simpl in *; subst s1; simpl.
  - done.
  - rewrite Z.sub_diag. simpl. lia.
Qed.

Lemma headTrace_head n s : head (headTrace n s) = Some (headPosition s).
Proof. by destruct n. Qed.

Lemma moveHeads_cost n s :
  totalSeekTime (moveHeads n s) = totalSeekTime s + travel (headTrace n s).
Proof.
  revert s. induction n as [|n IH]; intros s; simpl; [lia|].
  rewrite IH, moveHead_cost.
  pose proof (headTrace_head n (moveHead s)) as Hh.
  destruct (headTrace n (moveHead s)) as [|b l]; [discriminate|].
  simpl in Hh. inversion Hh; subst. lia.
Qed.

Lemma filter_twice {A : Type} (P Q : A -> bool) (l : list A) :
  List.filter Q (List.filter P l) = List.filter (fun x => P x && Q x) l.
Proof.
  induction l as [|x l IH]; simpl; [done|].
  destruct (P x); simpl; [|done]. destruct (Q x); by rewrite IH.
Qed.

Lemma unserved_pending s i r :
  requests s !! i = Some r -> unserved (i, r) = true -> pending s i r.
Proof.
  intros Hi. unfold unserved, pending. simpl. by destruct (isServed r).
Qed.

Lemma pending_unserved s i r : pending s i r -> unserved (i, r) = true.
Proof. intros [_ H]. unfold unserved. simpl. by rewrite H. Qed.

Lemma pending_entry (P : Ref -> bool) s i r :
  pending s i r -> P (i, r) = true ->
  (i, r) ∈ List.filter P (entries (requests s)).
Proof.
  intros [Hi _] HP. apply elem_of_List_filter.
  split; [by apply elem_of_entries | done].
Qed.

(** One directional search of SCAN: among the pending requests that pass
    the test [Q], the head of the sorted selection is the first one that
    minimises [key]; it is missing exactly when no pending request
    passes [Q]. *)
Lemma scan_search (cmp : Ref -> Ref -> Z) (key : Ref -> Z) (Q : Ref -> bool) s :
  (forall a b, cmp a b = key a - key b) ->
  match
    head (sort cmp (List.filter Q (List.filter unserved (entries (requests s)))))
  with
  | None => forall j r', pending s j r' -> Q (j, r') = false
  | Some (i, r) =>
      pending s i r /\ Q (i, r) = true /\
      forall j r', pending s j r' -> Q (j, r') = true ->
        key (i, r) <= key (j, r') /\
        (key (j, r') = key (i, r) -> (i <= j)%nat)
  end.
Proof.
  intros Hcmp. rewrite filter_twice.
  pose proof (sort_head cmp key
    (List.filter (fun x => unserved x && Q x) (entries (requests s))) Hcmp) as H.
  destruct (head _) as [[i r]|].
  - apply firstMin_entries in H as (Hi & HP & Hmin).
    apply andb_true_iff in HP as [HU HQ].
    split; [by apply unserved_pending|]. split; [done|].
    intros j r' Hp HQ'. apply Hmin; [by destruct Hp|].
    apply andb_true_iff. split; [by apply (pending_unserved s) | done].
  - intros j r' Hp. destruct (Q (j, r')) eqn:HQ; [|done]. exfalso.
    assert (Hin : (j, r') ∈ List.filter (fun x => unserved x && Q x)
                                      (entries (requests s))).
    { apply pending_entry; [done|]. apply andb_true_iff.
      split; [by apply (pending_unserved s) | done]. }
    rewrite H in Hin. inversion Hin.
Qed.

Lemma moveHead_direction s :
  direction (moveHead s) = direction (getNextRequest s).2.
Proof.
  unfold moveHead. by destruct (getNextRequest s) as [[r|] s1].
Qed.

(** C1. Under SSTF, whenever some request is pending, [getNextRequest]
    selects a pending request whose distance from the head is less than or
    equal to the distance of every pending request, and among the pending
    requests at that same distance it selects the one that comes first in
    the array. *)
Theorem C1_sstf_selects_first_closest (s : State) :
  algorithm s = SSTF ->
  (exists j r', pending s j r') ->
  exists i r,
    (getNextRequest s).1 = Some (i, r) /\ pending s i r /\
    forall j r', pending s j r' ->
      distance (headPosition s) r <= distance (headPosition s) r' /\
      (distance (headPosition s) r' = distance (headPosition s) r ->
       (i <= j)%nat).
Proof.
  intros Halg (j0 & r0 & Hp0). unfold getNextRequest. rewrite Halg. simpl.
  pose proof (reduce_firstMin
    (fun e : Ref => distance (headPosition s) e.2)
    (closer (headPosition s))
    (List.filter unserved (entries (requests s)))
    (fun x => eq_refl) (fun c x => eq_refl)) as H.
  destruct (fold_left _ _ _) as [[i r]|].
  - apply firstMin_entries in H as (Hi & HP & Hmin). exists i, r.
    split; [done|]. split; [by apply unserved_pending|].
    intros j r' Hp. apply (Hmin j r'); [by destruct Hp|].
    by apply (pending_unserved s).
  - exfalso.
    assert (Hin : (j0, r0) ∈ List.filter unserved (entries (requests s))).
    { apply pending_entry; [done|]. by apply (pending_unserved s). }
    rewrite H in Hin. inversion Hin.
Qed.

Lemma C1_sstf_selects_first_closest_witness :
  exists i r,
    (getNextRequest sstfStart).1 = Some (i, r) /\ pending sstfStart i r /\
    forall j r', pending sstfStart j r' ->
      distance (headPosition sstfStart) r <= distance (headPosition sstfStart) r' /\
      (distance (headPosition sstfStart) r' = distance (headPosition sstfStart) r ->
       (i <= j)%nat).
Proof.
  apply (C1_sstf_selects_first_closest sstfStart).
  - reflexivity.
  - exists 0%nat, (mkRequest 98 false). split; reflexivity.
Defined.

(** C2. Under SCAN with the direction up: if some pending request lies at
    or above the head, [getNextRequest] returns the pending request with the
    smallest position at or above the head (the first such in the array if
    several share it) and queues no update; otherwise it queues
    [setDirection('down')], so that the next render sees the direction
    down, and returns the pending request with the largest position
    strictly below the head, if there is one, and nothing if there is
    none.  At head 50 with the requests 98, 183, 37, 122, 14, 124, 65, 67
    the first request selected is the one at 65. *)
Theorem C2_scan_up_selection (s : State) :
  algorithm s = SCAN -> direction s = up ->
  ((exists j r', ahead s j r') ->
     exists i r,
       getNextRequest s = (Some (i, r), s) /\ ahead s i r /\
       forall j r', ahead s j r' ->
         position r <= position r' /\
         (position r' = position r -> (i <= j)%nat)) /\
  ((forall j r', ~ ahead s j r') ->
     (getNextRequest s).2 = setDirection down s /\
     direction (moveHead s) = down /\
     ((exists j r', behind s j r') ->
        exists i r,
          (getNextRequest s).1 = Some (i, r) /\ behind s i r /\
          forall j r', behind s j r' ->
            position r' <= position r /\
            (position r' = position r -> (i <= j)%nat)) /\
     ((forall j r', ~ behind s j r') -> (getNextRequest s).1 = None)) /\
  (getNextRequest scanStart).1 = Some (6%nat, mkRequest 65 false).
Proof.
  intros Halg Hdir.
  pose proof (scan_search ascending (fun e : Ref => position e.2)
                (fun r : Ref => headPosition s <=? position r.2) s
                (fun a b => eq_refl)) as Hup.
  pose proof (scan_search descending (fun e : Ref => - position e.2)
                (fun r : Ref => position r.2 <? headPosition s) s) as Hdown.
  rewrite moveHead_direction.
  unfold getNextRequest. rewrite Halg, Hdir. simpl in *.
  split; [|split; [|reflexivity]].
  - intros (j0 & r0 & Hp0 & Hge0).
    destruct (head _) as [[i r]|].
    + destruct Hup as (Hp & HQ & Hmin). exists i, r.
      split; [done|]. split; [split; [done | lia]|].
      intros j r' [Hp' Hge']. apply Hmin; [done | lia].
    + specialize (Hup _ _ Hp0). lia.
  - intros Hnone.
    destruct (head (sort ascending _)) as [[i r]|].
    { destruct Hup as (Hp & HQ & _). exfalso. apply (Hnone i r).
      split; [done | lia]. }
    simpl. split; [done|]. split; [done|].
    specialize (Hdown ltac:(intros; unfold descending; lia)).
    split.
    + intros (j0 & r0 & Hp0 & Hlt0).
      destruct (head _) as [[i r]|].
      * destruct Hdown as (Hp & HQ & Hmin). exists i, r.
        split; [done|]. split; [split; [done | lia]|].
        intros j r' [Hp' Hlt'].
        destruct (Hmin j r' Hp' ltac:(lia)) as [Hle Htie].
        split; [lia|]. intros Heq. apply Htie. lia.
      * specialize (Hdown _ _ Hp0). lia.
    + intros Hnone'. destruct (head _) as [[i r]|]; [|done].
      destruct Hdown as (Hp & HQ & _). exfalso. apply (Hnone' i r).
      split; [done | lia].
Qed.

Lemma scanTop_eq :
  scanTop =
    mkState
      [mkRequest 98 true; mkRequest 183 true; mkRequest 37 false;
       mkRequest 122 true; mkRequest 14 false; mkRequest 124 true;
       mkRequest 65 true; mkRequest 67 true]
      183 SCAN false up 133.
Proof. reflexivity. Qed.

Lemma C2_scan_up_selection_witness :
  (exists i r,
     getNextRequest scanStart = (Some (i, r), scanStart) /\
     ahead scanStart i r /\
     forall j r', ahead scanStart j r' ->
       position r <= position r' /\
       (position r' = position r -> (i <= j)%nat)) /\
  ((getNextRequest scanTop).2 = setDirection down scanTop /\
   direction (moveHead scanTop) = down /\
   exists i r,
     (getNextRequest scanTop).1 = Some (i, r) /\ behind scanTop i r /\
     forall j r', behind scanTop j r' ->
       position r' <= position r /\
       (position r' = position r -> (i <= j)%nat)).
Proof.
  split.
  - apply (C2_scan_up_selection scanStart); [reflexivity | reflexivity |].
    exists 0%nat, (mkRequest 98 false).
    split; [split; reflexivity | vm_compute; discriminate].
  - assert (Hnone : forall j r', ~ ahead scanTop j r').
    { rewrite scanTop_eq. intros j r' [[Hj Hs] Hge]. simpl in *.
      do 8 (destruct j as [|j];
            [inversion Hj; subst; simpl in *; first [discriminate | lia]|]).
      discriminate. }
    destruct (proj1 (proj2 (C2_scan_up_selection scanTop eq_refl eq_refl)) Hnone)
      as (Hflip & Hdir & Hsel & _).
    split; [exact Hflip|]. split; [exact Hdir|].
    apply Hsel. exists 2%nat, (mkRequest 37 false).
    split; [split; reflexivity | reflexivity].
Defined.

(** C5. Under SSTF with the head at 50 and the requests 98, 183, 37, 122,
    14, 124, 65, 67, the first request selected is the one at 37, at
    distance 13, and after the first step the total seek time is 13. *)
Theorem C5_sstf_first_step :
  headPosition sstfStart = 50 /\
  map position (requests sstfStart) = [98; 183; 37; 122; 14; 124; 65; 67] /\
  (getNextRequest sstfStart).1 = Some (2%nat, mkRequest 37 false) /\
  distance (headPosition sstfStart) (mkRequest 37 false) = 13 /\
  headPosition (moveHead sstfStart) = 37 /\
  totalSeekTime (moveHead sstfStart) = 13.
Proof. repeat split. Qed.

(** C7. A call of [moveHead] that selects a request adds exactly
    |position of the request - head position| to the total seek time, moves
    the head to that position and marks the request served; hence after any
    number of calls the total seek time has grown by the sum of the
    distances between consecutive head positions, and equals that sum when
    the simulation starts from a reset. *)
Theorem C7_seek_cost_additive (s : State) (n : nat) :
  (forall r, (getNextRequest s).1 = Some r ->
     totalSeekTime (moveHead s) =
       totalSeekTime s + Z.abs (position r.2 - headPosition s) /\
     headPosition (moveHead s) = position r.2 /\
     requests (moveHead s) = markServed r (requests s)) /\
  totalSeekTime (moveHeads n s) = totalSeekTime s + travel (headTrace n s) /\
  totalSeekTime (moveHeads n (reset s)) = travel (headTrace n (reset s)).
Proof.
  split; [|split].
  - intros r Hr. unfold moveHead.
    destruct (getNextRequest_frame s) as [d Hd].
    destruct (getNextRequest s) as [nextRequest s1]. simpl in *. subst.
    done.
  - apply moveHeads_cost.
  - by rewrite moveHeads_cost.
Qed.

Lemma C7_seek_cost_additive_witness :
  totalSeekTime (moveHead sstfStart) =
    totalSeekTime sstfStart + Z.abs (37 - headPosition sstfStart) /\
  headPosition (moveHead sstfStart) = 37 /\
  requests (moveHead sstfStart) =
    markServed (2%nat, mkRequest 37 false) (requests sstfStart).
Proof.
  apply (proj1 (C7_seek_cost_additive sstfStart 8)
                (2%nat, mkRequest 37 false)).
  reflexivity.
Defined.

Lemma moveHeads_allServed_scan n s :
  algorithm s = SCAN -> allServed s ->
  requests (moveHeads n s) = requests s /\
  headPosition (moveHeads n s) = headPosition s /\
  totalSeekTime (moveHeads n s) = totalSeekTime s /\
  direction (moveHeads n s) =
    if Nat.even n then direction s else flip (direction s).
Proof.
  revert s. induction n as [|n IH]; intros s Halg Hall; [done|].
  destruct (moveHead_allServed_frame s Hall) as (Hr & Hh & Ht & Ha & _ & Hall').
  destruct (IH (moveHead s)) as (Hr' & Hh' & Ht' & Hd'); [congruence | done |].
  cbn [moveHeads]. rewrite Hr', Hh', Ht', Hd', Hr, Hh, Ht.
  repeat split.
  rewrite Nat.even_succ, <- Nat.negb_even.
  rewrite moveHead_allServed by done. rewrite Halg. simpl.
  destruct (Nat.even n), (direction s); done.
Qed.

(** C10. Under SCAN, once every request is served, [getNextRequest] finds
    no candidate in either direction and still queues the reversal of the
    direction; each call of [moveHead] leaves the requests, the head
    position and the total seek time as they are and reverses the
    direction: after [n] calls the direction is the original one if [n] is
    even, the opposite one if [n] is odd. *)
Theorem C10_scan_idle_toggles_direction (s : State) (n : nat) :
  algorithm s = SCAN -> allServed s ->
  getNextRequest s = (None, setDirection (flip (direction s)) s) /\
  (requests (moveHead s) = requests s /\
   headPosition (moveHead s) = headPosition s /\
   totalSeekTime (moveHead s) = totalSeekTime s /\
   direction (moveHead s) = flip (direction s)) /\
  (requests (moveHeads n s) = requests s /\
   headPosition (moveHeads n s) = headPosition s /\
   totalSeekTime (moveHeads n s) = totalSeekTime s /\
   direction (moveHeads n s) =
     if Nat.even n then direction s else flip (direction s)).
Proof.
  intros Halg Hall.
  split; [by rewrite getNextRequest_allServed, Halg|].
  split; [|by apply moveHeads_allServed_scan].
  destruct (moveHead_allServed_frame s Hall) as (Hr & Hh & Ht & _).
  repeat split; try done.
  rewrite moveHead_allServed by done. by rewrite Halg.
Qed.

Lemma C10_scan_idle_toggles_direction_witness :
  getNextRequest scanDone
    = (None, setDirection (flip (direction scanDone)) scanDone) /\
  (requests (moveHead scanDone) = requests scanDone /\
   headPosition (moveHead scanDone) = headPosition scanDone /\
   totalSeekTime (moveHead scanDone) = totalSeekTime scanDone /\
   direction (moveHead scanDone) = flip (direction scanDone)) /\
  (requests (moveHeads 3 scanDone) = requests scanDone /\
   headPosition (moveHeads 3 scanDone) = headPosition scanDone /\
   totalSeekTime (moveHeads 3 scanDone) = totalSeekTime scanDone /\
   direction (moveHeads 3 scanDone) = flip (direction scanDone)).
Proof.
  apply (C10_scan_idle_toggles_direction scanDone 3).
  - reflexivity.
  - vm_compute. repeat constructor.
Defined.

Lemma moveHeads_allServed_frame n s :
  allServed s ->
  requests (moveHeads n s) = requests s /\
  headPosition (moveHeads n s) = headPosition s /\
  totalSeekTime (moveHeads n s) = totalSeekTime s /\
  allServed (moveHeads n s).
Proof.
  revert s. induction n as [|n IH]; intros s Hall; [done|].
  destruct (moveHead_allServed_frame s Hall) as (Hr & Hh & Ht & _ & _ & Hall').
  destruct (IH (moveHead s) Hall') as (Hr' & Hh' & Ht' & Hall'').
  cbn [moveHeads]. rewrite Hr', Hh', Ht'. done.
Qed.

End DiskSchedulingSpec.

(** ** Page replacement *)

Module PageReplacementSpec.
Import JsArray JsArrayFacts PageReplacement PageVocabulary.
Local Open Scope Z_scope.

Lemma map_fmap {A B : Type} (f : A -> B) (l : list A) : map f l = f <$> l.
Proof. reflexivity. Qed.

(** *** Lists without duplicates *)

Section nodup.
Context {A : Type}.
Implicit Types (l : list A) (x : A).

Lemma NoDup_snoc l x : NoDup l -> x ∉ l -> NoDup (l ++ [x]).
Proof.
  intros Hl Hx. apply NoDup_app. split; [done|]. split; [|apply NoDup_singleton].
  intros y Hy Hy'. apply list_elem_of_singleton in Hy'. by subst.
Qed.

Lemma NoDup_drop1_snoc l x : NoDup l -> x ∉ l -> NoDup (drop 1 l ++ [x]).
Proof.
  intros Hl Hx. destruct l as [|y l]; simpl; [apply NoDup_singleton|].
  apply NoDup_cons in Hl as [_ Hl]. apply not_elem_of_cons in Hx as [_ Hx].
  rewrite drop_0. by apply NoDup_snoc.
Qed.

Lemma elem_of_insert l v x y : y ∈ <[v := x]> l -> y = x \/ y ∈ l.
Proof.
  revert v. induction l as [|z l IH]; intros v Hy; simpl in *; [by right|].
  destruct v as [|v]; simpl in Hy.
  - apply elem_of_cons in Hy as [->|Hy]; [by left|].
    right. apply elem_of_cons. by right.
  - apply elem_of_cons in Hy as [->|Hy]; [right; apply elem_of_cons; by left|].
    destruct (IH _ Hy) as [->|Hin]; [by left|].
    right. apply elem_of_cons. by right.
Qed.

Lemma NoDup_insert_fresh l v x : NoDup l -> x ∉ l -> NoDup (<[v := x]> l).
Proof.
  revert v. induction l as [|z l IH]; intros v Hl Hx; simpl; [done|].
  apply NoDup_cons in Hl as [Hz Hl].
  apply not_elem_of_cons in Hx as [Hxz Hx].
  destruct v as [|v]; simpl; apply NoDup_cons.
  - done.
  - split; [|by apply IH].
    intros Hin. apply elem_of_insert in Hin as [->|Hin]; done.
Qed.
End nodup.

(** *** Residency *)

Lemma resident_true newPage ps :
  resident newPage ps = true <-> newPage ∈ map id ps.
Proof.
  unfold resident. induction ps as [|p ps IH]; simpl.
  - split; [done | intros H; inversion H].
  - rewrite orb_true_iff, IH, elem_of_cons, Z.eqb_eq.
    split; intros [H|H]; auto.
Qed.

Lemma resident_false newPage ps :
  resident newPage ps = false <-> newPage ∉ map id ps.
Proof.
  rewrite <- resident_true. destruct (resident newPage ps); split; try done.
Qed.

(** *** The two-phase replacement *)

Lemma leaving_then_drop (ps : list Page) :
  drop 1 (mapi (fun i p => if Nat.eqb i 0 then leaving p else p) ps)
  = drop 1 ps.
Proof.
  apply list_eq. intros i. rewrite !lookup_drop, lookup_mapi. simpl.
  by destruct (ps !! S i).
Qed.

Lemma leaving_then_insert (ps : list Page) (v : nat) (x : Page) :
  <[v := x]> (mapi (fun i p => if Nat.eqb i v then leaving p else p) ps)
  = <[v := x]> ps.
Proof.
  apply list_eq. intros i. rewrite !list_lookup_insert, length_mapi.
  destruct (decide _) as [|Hne]; [done|].
  rewrite lookup_mapi.
  destruct (Nat.eqb_spec i v) as [->|Hiv].
  - destruct (ps !! v) eqn:Hv; [|done].
    apply lookup_lt_Some in Hv. exfalso. apply Hne. by split.
  - by destruct (ps !! i).
Qed.

Lemma step_done now s :
  sequence s !! currentStep s = None ->
  handleNext now s = (setIsNarrating true (setNarration Completed s), None).
Proof. intros H. unfold handleNext. by rewrite H. Qed.

Lemma step_hit now s newPage :
  sequence s !! currentStep s = Some newPage ->
  resident newPage (pages s) = true ->
  pages (step now s) =
    match algorithm s with
    | LRU => map (fun p => if id p =? newPage then touch now p else p) (pages s)
    | FIFO => pages s
    end /\
  pageFaults (step now s) = pageFaults s /\
  currentStep (step now s) = S (currentStep s).
Proof.
  intros Hseq Hres. unfold step, handleNext. rewrite Hseq, Hres. simpl.
  by destruct (algorithm s).
Qed.

Lemma step_load now s newPage :
  sequence s !! currentStep s = Some newPage ->
  resident newPage (pages s) = false ->
  (length (pages s) < frameSize)%nat ->
  pages (step now s) = pages s ++ [enteringPage newPage now None] /\
  pageFaults (step now s) = S (pageFaults s) /\
  currentStep (step now s) = S (currentStep s).
Proof.
  intros Hseq Hres Hlen. unfold step, handleNext. rewrite Hseq, Hres. simpl.
  destruct (Nat.ltb_spec (length (pages s)) frameSize); [done | lia].
Qed.

Lemma step_evict_fifo now s newPage :
  algorithm s = FIFO -> evicting s newPage ->
  exists victim,
    pages s !! 0%nat = Some victim /\
    pages (step now s) =
      map notLeaving (drop 1 (pages s))
        ++ [enteringPage newPage now (Some (id victim))] /\
    pageFaults (step now s) = S (pageFaults s) /\
    currentStep (step now s) = S (currentStep s).
Proof.
  intros Halg (Hseq & Hres & Hlen). unfold step, handleNext.
  rewrite Hseq, Hres, Halg. simpl.
  destruct (Nat.ltb_spec (length (pages s)) frameSize); [lia|].
  destruct (pages s !! 0%nat) as [victim|] eqn:H0.
  - exists victim. split; [done|]. simpl. by rewrite leaving_then_drop.
  - apply lookup_ge_None in H0. unfold frameSize in *. lia.
Qed.

(** *** The frame that LRU empties *)

Lemma entries_from_snoc {A : Type} (l : list A) (k : nat) (y : A) :
  entries_from k (l ++ [y]) = entries_from k l ++ [((k + length l)%nat, y)].
Proof.
  revert k. induction l as [|x l IH]; intros k; simpl.
  - by rewrite Nat.add_0_r.
  - rewrite IH. by replace (S k + length l)%nat with (k + S (length l))%nat by lia.
Qed.

(** The scan of [reduce] over a non-empty prefix [l1] of the array stops
    on the first frame of the prefix whose timestamp is minimal. *)
Lemma leastRecent_prefix (l1 l2 : list Page) :
  l1 <> [] ->
  exists q,
    l1 !! fold_left (olderThan (l1 ++ l2)) (entries l1) 0%nat = Some q /\
    forall j p, l1 !! j = Some p ->
      timestamp q <= timestamp p /\
      (timestamp p = timestamp q ->
       (fold_left (olderThan (l1 ++ l2)) (entries l1) 0 <= j)%nat).
Proof.
  revert l2. induction l1 as [|y l IH] using rev_ind; intros l2 Hne; [done|].
  unfold entries. rewrite entries_from_snoc, fold_left_app. simpl.
  rewrite <- app_assoc. simpl.
  assert (Hl : l = [] \/ l <> []) by (destruct l; [by left | by right]).
  destruct Hl as [-> | Hl].
  - simpl. unfold olderThan. simpl. rewrite Z.ltb_irrefl.
    exists y. split; [done|]. intros [|j] p Hj; simpl in Hj; [|done].
    inversion Hj; subst. split; [lia | done].
  - destruct (IH (y :: l2) Hl) as (q & Hq & Hmin).
    fold (entries l).
    set (m := fold_left (olderThan (l ++ y :: l2)) (entries l) 0%nat) in *.
    assert (Hm : (m < length l)%nat) by (by apply lookup_lt_Some in Hq).
    unfold olderThan. cbn [fst snd].
    rewrite (lookup_app_l_Some _ _ _ _ Hq).
    destruct (Z.ltb_spec (timestamp y) (timestamp q)) as [Hlt | Hge].
    + exists y. split; [by apply list_lookup_middle|].
      intros j p Hj. apply lookup_app_Some in Hj as [Hj | [Hj Hj']].
      * destruct (Hmin j p Hj) as [Hle _]. lia.
      * apply list_lookup_singleton_Some in Hj' as [_ ->]. split; lia.
    + exists q. split; [by apply lookup_app_l_Some|].
      intros j p Hj. apply lookup_app_Some in Hj as [Hj | [Hj Hj']].
      * by apply Hmin.
      * apply list_lookup_singleton_Some in Hj' as [_ ->]. split; lia.
Qed.

Lemma leastRecent_spec (ps : list Page) :
  ps <> [] ->
  exists victim,
    ps !! leastRecent ps = Some victim /\
    forall j p, ps !! j = Some p ->
      timestamp victim <= timestamp p /\
      (timestamp p = timestamp victim -> (leastRecent ps <= j)%nat).
Proof.
  intros Hne. pose proof (leastRecent_prefix ps [] Hne) as H.
  rewrite app_nil_r in H. exact H.
Qed.

Lemma evicting_nonempty s newPage : evicting s newPage -> pages s <> [].
Proof.
  intros (_ & _ & Hlen) Hnil. rewrite Hnil in Hlen. unfold frameSize in Hlen.
  simpl in Hlen. lia.
Qed.

Lemma step_evict_lru now s newPage :
  algorithm s = LRU -> evicting s newPage ->
  exists victim,
    pages s !! leastRecent (pages s) = Some victim /\
    pages (step now s) =
      <[leastRecent (pages s) := enteringPage newPage now (Some (id victim))]>
        (pages s) /\
    pageFaults (step now s) = S (pageFaults s) /\
    currentStep (step now s) = S (currentStep s).
Proof.
  intros Halg Hev.
  destruct (leastRecent_spec (pages s) (evicting_nonempty _ _ Hev))
    as (victim & Hv & _).
  destruct Hev as (Hseq & Hres & Hlen). unfold step, handleNext.
  rewrite Hseq, Hres, Halg. simpl.
  destruct (Nat.ltb_spec (length (pages s)) frameSize); [lia|].
  rewrite Hv. exists victim. split; [done|]. simpl.
  by rewrite leaving_then_insert.
Qed.

(** *** The resident set along a simulation *)

Lemma step_ids now s :
  ids (step now s) =
    match sequence s !! currentStep s with
    | None => ids s
    | Some newPage =>
        if resident newPage (pages s) then ids s
        else if (length (pages s) <? frameSize)%nat then ids s ++ [newPage]
        else
          match algorithm s with
          | FIFO => drop 1 (ids s) ++ [newPage]
          | LRU => <[leastRecent (pages s) := newPage]> (ids s)
          end
    end.
Proof.
  destruct (sequence s !! currentStep s) as [newPage|] eqn:Hseq.
  - destruct (resident newPage (pages s)) eqn:Hres.
    + destruct (step_hit now s newPage Hseq Hres) as (Hp & _).
      unfold ids. rewrite Hp. destruct (algorithm s); [done|].
      rewrite map_map. apply map_ext. intros p. by destruct (id p =? newPage).
    + destruct (Nat.ltb_spec (length (pages s)) frameSize) as [Hlt | Hge].
      * destruct (step_load now s newPage Hseq Hres Hlt) as (Hp & _).
        unfold ids. by rewrite Hp, map_app.
      * assert (Hev : evicting s newPage) by done.
        destruct (algorithm s) eqn:Halg.
        -- destruct (step_evict_fifo now s newPage Halg Hev) as (v & _ & Hp & _).
           unfold ids. rewrite Hp, map_app, map_map. simpl.
           by rewrite !map_fmap, fmap_drop.
        -- destruct (step_evict_lru now s newPage Halg Hev) as (v & _ & Hp & _).
           unfold ids. rewrite Hp. by rewrite !map_fmap, list_fmap_insert.
  - unfold step. by rewrite step_done.
Qed.

Lemma step_ok now s : residentSetOk s -> residentSetOk (step now s).
Proof.
  intros [Hlen Hnd]. unfold residentSetOk.
  assert (Hl : length (pages (step now s)) = length (ids (step now s))).
  { unfold ids. by rewrite length_map. }
  rewrite Hl, step_ids.
  assert (Hl' : length (ids s) = length (pages s)).
  { unfold ids. by rewrite length_map. }
  destruct (sequence s !! currentStep s) as [newPage|]; [|by rewrite Hl'].
  destruct (resident newPage (pages s)) eqn:Hres; [by rewrite Hl'|].
  apply resident_false in Hres. fold (ids s) in Hres.
  destruct (Nat.ltb_spec (length (pages s)) frameSize) as [Hlt | Hge].
  { rewrite length_app, Hl'. simpl. split; [lia | by apply NoDup_snoc]. }
  destruct (algorithm s).
  - rewrite length_app, length_drop, Hl'. simpl. unfold frameSize in *.
    split; [lia | by apply NoDup_drop1_snoc].
  - rewrite length_insert, Hl'. split; [done | by apply NoDup_insert_fresh].
Qed.




(** *** Timestamps along a simulation *)









(** *** After the last reference *)

Lemma completed_idem s :
  setIsNarrating true (setNarration Completed
    (setIsNarrating true (setNarration Completed s)))
  = setIsNarrating true (setNarration Completed s).
Proof. reflexivity. Qed.

Lemma run_done nows s :
  sequence s !! currentStep s = None ->
  run s (map Next nows) =
    match nows with
    | [] => s
    | _ => setIsNarrating true (setNarration Completed s)
    end.
Proof.
  revert s. induction nows as [|now nows IH]; intros s Hs; [done|].
  change (run s (map Next (now :: nows)))
    with (run (step now s) (map Next nows)).
  unfold step. rewrite step_done by done.
  rewrite IH by done. by destruct nows.
Qed.

End PageReplacementSpec.

(** ** Steps after the end of the input *)

Module TerminalSpec.
Local Open Scope Z_scope.

(** C6. Once the reference sequence is consumed, calls of [handleNext]
    change neither the fault count, nor the current step, nor the resident
    set, and each of them yields the same state, the one whose narration
    is the completion message.  Once every disk request is served, calls of
    [moveHead] change neither the head position, nor the total seek time,
    nor the requests, and each of them selects no request and leaves the
    simulation paused. *)
Theorem C6_terminal_steps_are_noops :
  (forall (s : PageReplacement.State) (nows : list Z) (now : Z),
     (length (PageReplacement.sequence s) <= PageReplacement.currentStep s)%nat ->
     let s' := PageReplacement.run s (map PageReplacement.Next nows) in
     PageReplacement.pageFaults s' = PageReplacement.pageFaults s /\
     PageReplacement.currentStep s' = PageReplacement.currentStep s /\
     PageReplacement.pages s' = PageReplacement.pages s /\
     PageReplacement.step now s' = PageReplacement.step now s /\
     PageReplacement.narration (PageReplacement.step now s')
       = PageReplacement.Completed) /\
  (forall (s : DiskScheduling.State) (n : nat),
     DiskScheduling.allServed s ->
     let s' := DiskScheduling.moveHeads n s in
     DiskScheduling.headPosition s' = DiskScheduling.headPosition s /\
     DiskScheduling.totalSeekTime s' = DiskScheduling.totalSeekTime s /\
     DiskScheduling.requests s' = DiskScheduling.requests s /\
     (DiskScheduling.getNextRequest s').1 = None /\
     DiskScheduling.isPlaying (DiskScheduling.moveHead s') = false).
Proof.
  split.
  - intros s nows now Hend s'. apply lookup_ge_None in Hend.
    subst s'. rewrite PageReplacementSpec.run_done by done.
    unfold PageReplacement.step.
    rewrite (PageReplacementSpec.step_done now s Hend).
    destruct nows as [|? ?]; [by rewrite PageReplacementSpec.step_done|].
    by rewrite PageReplacementSpec.step_done.
  - intros s n Hall s'.
    destruct (DiskSchedulingSpec.moveHeads_allServed_frame n s Hall)
      as (Hr & Hh & Ht & Hall').
    fold s' in Hr, Hh, Ht, Hall'.
    split; [done|]. split; [done|]. split; [done|].
    rewrite (DiskSchedulingSpec.getNextRequest_allServed s' Hall').
    split; [done|].
    by destruct (DiskSchedulingSpec.moveHead_allServed_frame s' Hall')
      as (_ & _ & _ & _ & Hp & _).
Qed.

Lemma C6_terminal_steps_are_noops_witness :
  (PageReplacement.pages
     (PageReplacement.run
        (PageReplacement.run PageReplacement.initialState
           (map PageReplacement.Next [1; 2; 3; 4; 5; 6; 7]))
        (map PageReplacement.Next [8; 9]))
   = PageReplacement.pages
       (PageReplacement.run PageReplacement.initialState
          (map PageReplacement.Next [1; 2; 3; 4; 5; 6; 7]))) /\
  DiskScheduling.totalSeekTime
    (DiskScheduling.moveHeads 2 DiskVocabulary.scanDone)
  = DiskScheduling.totalSeekTime DiskVocabulary.scanDone.
Proof.
  split.
  - apply (proj1 C6_terminal_steps_are_noops
             (PageReplacement.run PageReplacement.initialState
                (map PageReplacement.Next [1; 2; 3; 4; 5; 6; 7]))
             [8; 9] 10).
    vm_compute. lia.
  - apply (proj2 C6_terminal_steps_are_noops DiskVocabulary.scanDone 2%nat).
    vm_compute. repeat constructor.
Defined.

End TerminalSpec.

(** ** Disk scheduling: the other policies, the run and the controls *)

Module DiskSchedulingMore.
Import JsArray JsArrayFacts DiskScheduling DiskVocabulary DiskControls.
Import DiskSchedulingSpec.
Local Open Scope Z_scope.

Lemma map_fmap_local {A B : Type} (f : A -> B) (l : list A) :
  map f l = f <$> l.
Proof. reflexivity. Qed.

Lemma find_head_filter {A : Type} (P : A -> bool) (l : list A) :
  List.find P l = head (List.filter P l).
Proof. induction l as [|x l IH]; simpl; [done|]. by destruct (P x). Qed.

Lemma no_pending_allServed s :
  (forall j r, ~ pending s j r) -> allServed s.
Proof.
  intros Hnone. unfold allServed. apply Forall_lookup. intros i r Hi.
  destruct (isServed r) eqn:Hs; [done|]. by destruct (Hnone i r).
Qed.

Lemma allServed_no_pending s j r : allServed s -> ~ pending s j r.
Proof.
  unfold allServed. rewrite Forall_lookup. intros Hall [Hj Hs].
  specialize (Hall _ _ Hj). simpl in Hall. congruence.
Qed.

(** The first pending entry of the array, or nothing when all are served. *)
Lemma first_unserved s :
  match head (List.filter unserved (entries (requests s))) with
  | Some (i, r) => pending s i r /\ forall j r', pending s j r' -> (i <= j)%nat
  | None => allServed s
  end.
Proof.
  destruct (List.filter unserved (entries (requests s))) as [|[i r] l2] eqn:Hf;
    simpl.
  - apply no_pending_allServed. intros j r Hp.
    pose proof (pending_entry unserved s j r Hp (pending_unserved s j r Hp)) as Hin.
    rewrite Hf in Hin. inversion Hin.
  - assert (Hin : (i, r) ∈ List.filter unserved (entries (requests s))).
    { rewrite Hf. apply elem_of_cons. by left. }
    apply elem_of_List_filter in Hin as [Hin HU].
    apply elem_of_entries in Hin. split; [by apply unserved_pending|].
    intros j r' Hp.
    pose proof (pending_entry unserved s j r' Hp (pending_unserved s j r' Hp))
      as Hj.
    rewrite Hf in Hj. apply elem_of_cons in Hj as [Heq | Hj].
    + inversion Heq. lia.
    + destruct (entries_from_split unserved (requests s) 0 [] l2 (i, r) Hf)
        as (_ & _ & Hl2).
      specialize (Hl2 _ Hj). simpl in Hl2. lia.
Qed.

(** Whatever the policy, [getNextRequest] selects a pending request of the
    array, and selects nothing only when every request is served. *)
Lemma getNextRequest_spec s :
  match (getNextRequest s).1 with
  | Some (i, r) => pending s i r
  | None => allServed s
  end.
Proof.
  unfold getNextRequest. destruct (algorithm s); simpl.
  - rewrite find_head_filter. pose proof (first_unserved s) as H.
    destruct (head _) as [[i r]|]; [by destruct H | done].
  - pose proof (reduce_firstMin
      (fun e : Ref => distance (headPosition s) e.2)
      (closer (headPosition s))
      (List.filter unserved (entries (requests s)))
      (fun x => eq_refl) (fun c x => eq_refl)) as H.
    destruct (fold_left _ _ _) as [[i r]|].
    + apply firstMin_entries in H as (Hi & HP & _). by apply unserved_pending.
    + apply no_pending_allServed. intros j r Hp.
      pose proof (pending_entry unserved s j r Hp (pending_unserved s j r Hp))
        as Hin.
      rewrite H in Hin. inversion Hin.
  - destruct (direction s).
    + pose proof (scan_search ascending (fun e : Ref => position e.2)
                    (fun r : Ref => headPosition s <=? position r.2) s
                    (fun a b => eq_refl)) as Hge.
      pose proof (scan_search descending (fun e : Ref => - position e.2)
                    (fun r : Ref => position r.2 <? headPosition s) s
                    ltac:(intros; unfold descending; lia)) as Hlt.
      simpl in *.
      destruct (head (sort ascending _)) as [[i r]|]; simpl; [by destruct Hge|].
      destruct (head (sort descending _)) as [[i r]|]; simpl; [by destruct Hlt|].
      apply no_pending_allServed. intros j r Hp.
      specialize (Hge _ _ Hp). specialize (Hlt _ _ Hp). lia.
    + pose proof (scan_search descending (fun e : Ref => - position e.2)
                    (fun r : Ref => position r.2 <=? headPosition s) s
                    ltac:(intros; unfold descending; lia)) as Hle.
      pose proof (scan_search ascending (fun e : Ref => position e.2)
                    (fun r : Ref => headPosition s <? position r.2) s
                    (fun a b => eq_refl)) as Hgt.
      simpl in *.
      destruct (head (sort descending _)) as [[i r]|]; simpl; [by destruct Hle|].
      destruct (head (sort ascending _)) as [[i r]|]; simpl; [by destruct Hgt|].
      apply no_pending_allServed. intros j r Hp.
      specialize (Hle _ _ Hp). specialize (Hgt _ _ Hp). lia.
Qed.

Lemma nextDisabled_allServed s : nextDisabled s = true <-> allServed s.
Proof.
  unfold nextDisabled, allServed.
  induction (requests s) as [|r rs IH]; simpl.
  - split; [constructor | done].
  - rewrite Forall_cons, <- IH. destruct (isServed r); simpl; [tauto|].
    split; [done | by intros [? _]].
Qed.

Lemma markServed_insert i r r0 rs :
  rs !! i = Some r0 ->
  markServed (i, r) rs = <[i := mkRequest (position r0) true]> rs.
Proof.
  intros Hi. apply list_eq. intros j. unfold markServed.
  rewrite lookup_mapi, list_lookup_insert. simpl.
  destruct (Nat.eqb_spec j i) as [-> | Hne].
  - rewrite Hi. simpl. apply lookup_lt_Some in Hi.
    destruct (decide _) as [|Hn]; [done | by destruct Hn].
  - destruct (decide _) as [[? _]|_]; [congruence|]. by destruct (rs !! j).
Qed.

Lemma moveHead_requests s :
  requests (moveHead s) =
    match (getNextRequest s).1 with
    | Some r => markServed r (requests s)
    | None => requests s
    end.
Proof.
  unfold moveHead. destruct (getNextRequest_frame s) as [d Hd].
  destruct (getNextRequest s) as [[r|] s1]; simpl in *; by subst.
Qed.

Lemma moveHead_head s :
  headPosition (moveHead s) =
    match (getNextRequest s).1 with
    | Some r => position r.2
    | None => headPosition s
    end.
Proof.
  unfold moveHead. destruct (getNextRequest_frame s) as [d Hd].
  destruct (getNextRequest s) as [[r|] s1]; simpl in *; by subst.
Qed.

Lemma moveHead_isPlaying s :
  isPlaying (moveHead s) =
    match (getNextRequest s).1 with
    | Some r => isPlaying s
    | None => false
    end.
Proof.
  unfold moveHead. destruct (getNextRequest_frame s) as [d Hd].
  destruct (getNextRequest s) as [[r|] s1]; simpl in *; by subst.
Qed.

Lemma moveHead_algorithm s : algorithm (moveHead s) = algorithm s.
Proof.
  unfold moveHead. destruct (getNextRequest_frame s) as [d Hd].
  destruct (getNextRequest s) as [[r|] s1]; simpl in *; by subst.
Qed.

(** X1. Under FCFS the request selected is exactly the pending request of
    lowest index, and the selection queues no update. *)
Theorem X1_fcfs_selects_first_pending (s : State) (i : nat) (r : Request) :
  algorithm s = FCFS ->
  (getNextRequest s).2 = s /\
  ((getNextRequest s).1 = Some (i, r) <->
   pending s i r /\ forall j r', pending s j r' -> (i <= j)%nat).
Proof.
  intros Halg. unfold getNextRequest. rewrite Halg. simpl. split; [done|].
  rewrite find_head_filter. pose proof (first_unserved s) as H.
  destruct (head _) as [[i0 r0]|].
  - destruct H as [Hp Hmin]. split.
    + intros Heq. inversion Heq; subst. done.
    + intros [Hp' Hmin'].
      assert (i0 = i) as -> by (specialize (Hmin _ _ Hp');
                                 specialize (Hmin' _ _ Hp); lia).
      destruct Hp as [Hi _], Hp' as [Hi' _].
      rewrite Hi in Hi'. by inversion Hi'.
  - split; [done|]. intros [Hp _]. by destruct (allServed_no_pending s i r).
Qed.

Lemma X1_fcfs_selects_first_pending_witness :
  (getNextRequest initialState).1 = Some (0%nat, mkRequest 98 false) <->
  pending initialState 0 (mkRequest 98 false) /\
  forall j r', pending initialState j r' -> (0 <= j)%nat.
Proof.
  apply (X1_fcfs_selects_first_pending initialState 0 (mkRequest 98 false)).
  reflexivity.
Defined.

(** X2. Under SCAN with the direction down: if some pending request lies at
    or below the head, the one with the largest such position is returned
    (the first in the array if several share it) and no update is queued;
    otherwise [setDirection('up')] is queued and the pending request with
    the smallest position strictly above the head is returned, or nothing
    if there is none. *)
Theorem X2_scan_down_selection (s : State) :
  algorithm s = SCAN -> direction s = down ->
  ((exists j r', atOrBelow s j r') ->
     exists i r,
       getNextRequest s = (Some (i, r), s) /\ atOrBelow s i r /\
       forall j r', atOrBelow s j r' ->
         position r' <= position r /\
         (position r' = position r -> (i <= j)%nat)) /\
  ((forall j r', ~ atOrBelow s j r') ->
     (getNextRequest s).2 = setDirection up s /\
     direction (moveHead s) = up /\
     ((exists j r', above s j r') ->
        exists i r,
          (getNextRequest s).1 = Some (i, r) /\ above s i r /\
          forall j r', above s j r' ->
            position r <= position r' /\
            (position r' = position r -> (i <= j)%nat)) /\
     ((forall j r', ~ above s j r') -> (getNextRequest s).1 = None)).
Proof.
  intros Halg Hdir.
  pose proof (scan_search descending (fun e : Ref => - position e.2)
                (fun r : Ref => position r.2 <=? headPosition s) s
                ltac:(intros; unfold descending; lia)) as Hle.
  pose proof (scan_search ascending (fun e : Ref => position e.2)
                (fun r : Ref => headPosition s <? position r.2) s
                (fun a b => eq_refl)) as Hgt.
  rewrite moveHead_direction.
  unfold getNextRequest. rewrite Halg, Hdir. simpl in *.
  split.
  - intros (j0 & r0 & Hp0 & Hle0).
    destruct (head _) as [[i r]|].
    + destruct Hle as (Hp & HQ & Hmin). exists i, r.
      split; [done|]. split; [split; [done | lia]|].
      intros j r' [Hp' Hle'].
      destruct (Hmin j r' Hp' ltac:(lia)) as [Hm Htie].
      split; [lia|]. intros Heq. apply Htie. lia.
    + specialize (Hle _ _ Hp0). lia.
  - intros Hnone.
    destruct (head (sort descending _)) as [[i r]|].
    { destruct Hle as (Hp & HQ & _). exfalso. apply (Hnone i r).
      split; [done | lia]. }
    simpl. split; [done|]. split; [done|]. split.
    + intros (j0 & r0 & Hp0 & Hgt0).
      destruct (head _) as [[i r]|].
      * destruct Hgt as (Hp & HQ & Hmin). exists i, r.
        split; [done|]. split; [split; [done | lia]|].
        intros j r' [Hp' Hgt']. apply Hmin; [done | lia].
      * specialize (Hgt _ _ Hp0). lia.
    + intros Hnone'. destruct (head _) as [[i r]|]; [|done].
      destruct Hgt as (Hp & HQ & _). exfalso. apply (Hnone' i r).
      split; [done | lia].
Qed.

Lemma scanBottom_eq :
  scanBottom = mkState initialRequests 10 SCAN false down 0.
Proof. reflexivity. Qed.

Lemma X2_scan_down_selection_witness :
  (exists i r,
     getNextRequest (moveHead scanTop) = (Some (i, r), moveHead scanTop) /\
     atOrBelow (moveHead scanTop) i r /\
     forall j r', atOrBelow (moveHead scanTop) j r' ->
       position r' <= position r /\
       (position r' = position r -> (i <= j)%nat)) /\
  ((getNextRequest scanBottom).2 = setDirection up scanBottom /\
   direction (moveHead scanBottom) = up /\
   exists i r,
     (getNextRequest scanBottom).1 = Some (i, r) /\ above scanBottom i r /\
     forall j r', above scanBottom j r' ->
       position r <= position r' /\
       (position r' = position r -> (i <= j)%nat)).
Proof.
  split.
  - apply (X2_scan_down_selection (moveHead scanTop)); [reflexivity..|].
    exists 4%nat, (mkRequest 14 false).
    split; [split; reflexivity | vm_compute; discriminate].
  - assert (Hnone : forall j r', ~ atOrBelow scanBottom j r').
    { rewrite scanBottom_eq. intros j r' [[Hj Hs] Hle]. simpl in *.
      do 8 (destruct j as [|j];
            [inversion Hj; subst; simpl in *; first [discriminate | lia]|]).
      discriminate. }
    destruct (proj2 (X2_scan_down_selection scanBottom eq_refl eq_refl) Hnone)
      as (Hflip & Hdir & Hsel & _).
    split; [exact Hflip|]. split; [exact Hdir|].
    apply Hsel. exists 0%nat, (mkRequest 98 false).
    split; [split; reflexivity | reflexivity].
Defined.

(** X3. For every policy, [getNextRequest] returns nothing exactly when the
    button of the next step is disabled, that is when every request is
    served; otherwise it returns a pending request of the array. *)
Theorem X3_selection_iff_enabled (s : State) :
  ((getNextRequest s).1 = None <-> nextDisabled s = true) /\
  (nextDisabled s = true <-> allServed s) /\
  (forall i r, (getNextRequest s).1 = Some (i, r) -> pending s i r).
Proof.
  pose proof (getNextRequest_spec s) as H.
  split; [|split; [apply nextDisabled_allServed|]].
  - rewrite nextDisabled_allServed. split.
    + intros Hn. by rewrite Hn in H.
    + intros Hall. by rewrite getNextRequest_allServed.
  - intros i r Hsel. by rewrite Hsel in H.
Qed.

Lemma X3_selection_iff_enabled_witness :
  pending sstfStart 2 (mkRequest 37 false).
Proof.
  apply (proj2 (proj2 (X3_selection_iff_enabled sstfStart))). reflexivity.
Defined.

(** X4. A call of [moveHead] that selects the request at index [i] marks
    that request served and changes no other element of the array; no call
    changes a position or the number of requests, and a request once served
    stays served. *)
Theorem X4_moveHead_serves_selected (s : State) :
  (forall i r, (getNextRequest s).1 = Some (i, r) ->
     requests (moveHead s) !! i = Some (mkRequest (position r) true) /\
     forall j, j <> i -> requests (moveHead s) !! j = requests s !! j) /\
  map position (requests (moveHead s)) = map position (requests s) /\
  length (requests (moveHead s)) = length (requests s) /\
  (forall j r, requests s !! j = Some r -> isServed r = true ->
     requests (moveHead s) !! j = Some r).
Proof.
  pose proof (getNextRequest_spec s) as Hspec.
  rewrite moveHead_requests.
  destruct ((getNextRequest s).1) as [[i r]|].
  - destruct Hspec as [Hi Hs].
    rewrite (markServed_insert i r r (requests s) Hi).
    split; [|split; [|split]].
    + intros i' r' Heq. inversion Heq; subst. split.
      * apply list_lookup_insert_eq. by apply lookup_lt_Some in Hi.
      * intros j Hj. by apply list_lookup_insert_ne.
    + rewrite !map_fmap_local, list_fmap_insert. simpl.
      apply list_insert_id. by rewrite list_lookup_fmap, Hi.
    + apply length_insert.
    + intros j r' Hj Hs'. rewrite list_lookup_insert_ne; [done|].
      intros ->. congruence.
  - split; [done|]. split; [done|]. split; [done|]. done.
Qed.

Lemma X4_moveHead_serves_selected_witness :
  requests (moveHead sstfStart) !! 2%nat = Some (mkRequest 37 true) /\
  forall j, j <> 2%nat ->
    requests (moveHead sstfStart) !! j = requests sstfStart !! j.
Proof.
  apply (proj1 (X4_moveHead_serves_selected sstfStart) 2%nat
           (mkRequest 37 false)).
  reflexivity.
Defined.

(** *** Progress *)

Lemma pendingCount_serve (rs : list Request) (i : nat) (r0 : Request) (p : Z) :
  rs !! i = Some r0 -> isServed r0 = false ->
  S (length (List.filter (fun r => negb (isServed r))
                         (<[i := mkRequest p true]> rs)))
  = length (List.filter (fun r => negb (isServed r)) rs).
Proof.
  revert i. induction rs as [|x rs IH]; intros i Hi Hs; [done|].
  destruct i as [|i]; simpl in *.
  - inversion Hi; subst. by rewrite Hs.
  - destruct (negb (isServed x)); simpl; by rewrite (IH i Hi Hs).
Qed.

Lemma pendingCount_allServed s : pendingCount s = 0%nat <-> allServed s.
Proof.
  unfold pendingCount, allServed.
  induction (requests s) as [|r rs IH]; simpl.
  - split; [constructor | done].
  - rewrite Forall_cons, <- IH. destruct (isServed r); simpl; [tauto|].
    split; [done | by intros [? _]].
Qed.

Lemma pendingCount_moveHead s :
  pendingCount (moveHead s) = pred (pendingCount s).
Proof.
  pose proof (getNextRequest_spec s) as Hspec.
  unfold pendingCount at 1. rewrite moveHead_requests.
  destruct ((getNextRequest s).1) as [[i r]|].
  - destruct Hspec as [Hi Hs].
    rewrite (markServed_insert i r r (requests s) Hi).
    unfold pendingCount.
    by rewrite <- (pendingCount_serve (requests s) i r (position r) Hi Hs).
  - apply pendingCount_allServed in Hspec. fold (pendingCount s).
    by rewrite Hspec.
Qed.

Lemma pendingCount_moveHeads n s :
  pendingCount (moveHeads n s) = (pendingCount s - n)%nat.
Proof.
  revert s. induction n as [|n IH]; intros s; simpl; [lia|].
  rewrite IH, pendingCount_moveHead. lia.
Qed.

Lemma selected_if_pending s :
  (0 < pendingCount s)%nat -> exists r, (getNextRequest s).1 = Some r.
Proof.
  intros Hpos. pose proof (getNextRequest_spec s) as Hspec.
  destruct ((getNextRequest s).1) as [r|]; [by exists r|].
  apply pendingCount_allServed in Hspec. lia.
Qed.

(** X5. Every call of [moveHead] lowers the number of pending requests by
    one until none is left, whatever the policy: no pending request is
    passed over for ever, and after as many calls as there were pending
    requests all of them are served, not before. *)
Theorem X5_all_served_after_pending_count (s : State) (n : nat) :
  pendingCount (moveHeads n s) = (pendingCount s - n)%nat /\
  allServed (moveHeads (pendingCount s) s) /\
  ((n < pendingCount s)%nat -> nextDisabled (moveHeads n s) = false).
Proof.
  split; [apply pendingCount_moveHeads|]. split.
  - apply pendingCount_allServed. rewrite pendingCount_moveHeads. lia.
  - intros Hlt. destruct (nextDisabled _) eqn:Hd; [|done].
    apply nextDisabled_allServed, pendingCount_allServed in Hd.
    rewrite pendingCount_moveHeads in Hd. lia.
Qed.

Lemma X5_all_served_after_pending_count_witness :
  nextDisabled (moveHeads 7 sstfStart) = false.
Proof.
  apply (proj2 (proj2 (X5_all_served_after_pending_count sstfStart 7))).
  vm_compute. lia.
Defined.

(** *** Reset *)

Lemma moveHead_positions s :
  map position (requests (moveHead s)) = map position (requests s).
Proof.
  pose proof (getNextRequest_spec s) as Hspec.
  rewrite moveHead_requests.
  destruct ((getNextRequest s).1) as [[i r]|]; [|done].
  destruct Hspec as [Hi Hs].
  rewrite (markServed_insert i r r (requests s) Hi).
  rewrite !map_fmap_local, list_fmap_insert. simpl.
  apply list_insert_id. by rewrite list_lookup_fmap, Hi.
Qed.

Lemma moveHeads_positions n s :
  map position (requests (moveHeads n s)) = map position (requests s).
Proof.
  revert s. induction n as [|n IH]; intros s; simpl; [done|].
  by rewrite IH, moveHead_positions.
Qed.

Lemma moveHeads_algorithm n s : algorithm (moveHeads n s) = algorithm s.
Proof.
  revert s. induction n as [|n IH]; intros s; simpl; [done|].
  by rewrite IH, moveHead_algorithm.
Qed.

Lemma reset_positions s :
  reset s =
    mkState (map (fun p => mkRequest p false) (map position (requests s)))
            50 (algorithm s) false up 0.
Proof. unfold reset. simpl. by rewrite map_map. Qed.

(** X7. The reset restores one and the same state whatever number of steps
    came before it: every request unserved at its position, the head at 50,
    no seek time, the direction up, the play paused, the algorithm kept.
    The button of an algorithm, which resets, does so as well. *)
Theorem X7_reset_forgets_the_steps (s : State) (n : nat) (alg : Algorithm) :
  reset (moveHeads n s) = reset s /\
  selectAlgorithm alg (moveHeads n s) = selectAlgorithm alg s /\
  reset (reset s) = reset s /\
  pendingCount (reset s) = length (requests s) /\
  map position (requests (reset s)) = map position (requests s) /\
  algorithm (reset s) = algorithm s.
Proof.
  split; [|split; [|split; [|split; [|split]]]].
  - by rewrite !reset_positions, moveHeads_positions, moveHeads_algorithm.
  - unfold selectAlgorithm. rewrite !reset_positions. simpl.
    by rewrite moveHeads_positions.
  - rewrite (reset_positions (reset s)). rewrite reset_positions at 2.
    simpl. rewrite reset_positions. f_equal.
    rewrite !map_map. by apply map_ext.
  - unfold pendingCount, reset. simpl.
    induction (requests s) as [|r rs IH]; simpl; [done|]. by rewrite IH.
  - unfold reset. simpl. rewrite map_map. by apply map_ext.
  - done.
Qed.

(** *** Bounds *)

Lemma within_moveHead lo hi s :
  within lo hi s ->
  within lo hi (moveHead s) /\
  0 <= headPosition (moveHead s) - headPosition s <= hi - lo \/
  within lo hi (moveHead s) /\
  0 <= headPosition s - headPosition (moveHead s) <= hi - lo.
Proof.
  intros [Hh Hrs].
  assert (Hrs' : Forall (fun r => lo <= position r <= hi) (requests (moveHead s))).
  { pose proof (moveHead_positions s) as Hpos.
    rewrite Forall_lookup in Hrs. apply Forall_lookup. intros j r' Hj.
    assert (Hp : map position (requests (moveHead s)) !! j = Some (position r')).
    { by rewrite map_fmap_local, list_lookup_fmap, Hj. }
    rewrite Hpos, map_fmap_local, list_lookup_fmap in Hp.
    destruct (requests s !! j) as [r0|] eqn:H0; [|done].
    pose proof (Hrs j r0 H0) as Hb. simpl in *.
    assert (position r0 = position r') by congruence. lia. }
  pose proof (getNextRequest_spec s) as Hspec.
  pose proof (moveHead_head s) as Hhead.
  destruct ((getNextRequest s).1) as [[i r]|].
  - destruct Hspec as [Hi _]. rewrite Forall_lookup in Hrs.
    specialize (Hrs _ _ Hi). simpl in *.
    destruct (Z.le_gt_cases (headPosition s) (position r)).
    + left. split; [split; [lia | done]|lia].
    + right. split; [split; [lia | done]|lia].
  - left. split; [split; [lia | done]|lia].
Qed.

(** X8. If the head and every request lie between [lo] and [hi], the head
    stays between them for ever, each call of [moveHead] adds between 0 and
    [hi - lo] to the total seek time, and so [n] calls add at most
    [n * (hi - lo)]; the total never decreases. *)
Theorem X8_head_stays_in_range (lo hi : Z) (s : State) (n : nat) :
  within lo hi s ->
  within lo hi (moveHeads n s) /\
  totalSeekTime s <= totalSeekTime (moveHeads n s)
    <= totalSeekTime s + Z.of_nat n * (hi - lo).
Proof.
  revert s. induction n as [|n IH]; intros s Hw.
  - simpl. split; [done | lia].
  - cbn [moveHeads].
    assert (Hstep : within lo hi (moveHead s) /\
                    totalSeekTime s <= totalSeekTime (moveHead s)
                      <= totalSeekTime s + (hi - lo)).
    { rewrite moveHead_cost.
      destruct (within_moveHead lo hi s Hw) as [[Hw' Hd] | [Hw' Hd]];
        (split; [done | lia]). }
    destruct Hstep as [Hw' Hc]. destruct (IH _ Hw') as [Hw'' Hc'].
    split; [done | lia].
Qed.

Lemma X8_head_stays_in_range_witness :
  within 0 199 (moveHeads 5 sstfStart) /\
  totalSeekTime sstfStart <= totalSeekTime (moveHeads 5 sstfStart)
    <= totalSeekTime sstfStart + Z.of_nat 5 * (199 - 0).
Proof.
  apply (X8_head_stays_in_range 0 199 sstfStart 5).
  split; [vm_compute; split; discriminate|].
  vm_compute. repeat constructor; discriminate.
Defined.

(** *** The automatic play *)

Lemma ticks_paused n s : isPlaying s = false -> ticks n s = s.
Proof.
  intros Hp. induction n as [|n IH]; simpl; [done|].
  unfold tick. by rewrite Hp.
Qed.

Lemma ticks_succ n s : ticks (S n) s = tick (ticks n s).
Proof. revert s. induction n as [|n IH]; intros s; [done|]. apply IH. Qed.

Lemma ticks_serving n s :
  isPlaying s = true -> (n <= pendingCount s)%nat ->
  ticks n s = moveHeads n s /\ isPlaying (ticks n s) = true.
Proof.
  revert s. induction n as [|n IH]; intros s Hp Hn; [done|].
  simpl. unfold tick. rewrite Hp.
  destruct (selected_if_pending s) as [r Hr]; [lia|].
  apply IH.
  - by rewrite moveHead_isPlaying, Hr.
  - rewrite pendingCount_moveHead. lia.
Qed.

(** X9. The automatic play, started with [k] pending requests, serves them
    in [k] firings of the interval, exactly as [k] presses of the button
    would, and is still playing; the next firing finds nothing to serve
    and pauses the play; from then on the state does not change. *)
Theorem X9_play_serves_then_pauses (s : State) (m : nat) :
  isPlaying s = true ->
  ticks (pendingCount s) s = moveHeads (pendingCount s) s /\
  allServed (ticks (pendingCount s) s) /\
  isPlaying (ticks (pendingCount s) s) = true /\
  isPlaying (ticks (S (pendingCount s)) s) = false /\
  ticks (S (pendingCount s) + m) s = ticks (S (pendingCount s)) s.
Proof.
  intros Hp.
  destruct (ticks_serving (pendingCount s) s Hp (le_n _)) as [Heq Hplay].
  assert (Hall : allServed (ticks (pendingCount s) s)).
  { rewrite Heq. apply pendingCount_allServed.
    rewrite pendingCount_moveHeads. lia. }
  assert (Hstop : isPlaying (ticks (S (pendingCount s)) s) = false).
  { rewrite ticks_succ. unfold tick. rewrite Hplay.
    by destruct (moveHead_allServed_frame _ Hall) as (_ & _ & _ & _ & H & _). }
  repeat split; try done.
  revert Hstop. generalize (S (pendingCount s)). intros k Hstop.
  induction m as [|m IH]; [by rewrite Nat.add_0_r|].
  rewrite Nat.add_succ_r, ticks_succ, IH. unfold tick. by rewrite Hstop.
Qed.

Lemma X9_play_serves_then_pauses_witness :
  ticks (pendingCount (togglePlay scanStart)) (togglePlay scanStart)
    = moveHeads (pendingCount (togglePlay scanStart)) (togglePlay scanStart) /\
  allServed (ticks (pendingCount (togglePlay scanStart)) (togglePlay scanStart)) /\
  isPlaying (ticks (pendingCount (togglePlay scanStart)) (togglePlay scanStart))
    = true /\
  isPlaying (ticks (S (pendingCount (togglePlay scanStart)))
                   (togglePlay scanStart)) = false /\
  ticks (S (pendingCount (togglePlay scanStart)) + 4) (togglePlay scanStart)
    = ticks (S (pendingCount (togglePlay scanStart))) (togglePlay scanStart).
Proof.
  apply (X9_play_serves_then_pauses (togglePlay scanStart) 4). reflexivity.
Defined.

(** *** FCFS along a run *)

Lemma fcfs_selects_prefix_end s k rk :
  algorithm s = FCFS -> servedPrefix k s -> requests s !! k = Some rk ->
  (getNextRequest s).1 = Some (k, rk).
Proof.
  intros Halg Hpre Hk. unfold getNextRequest. rewrite Halg. simpl.
  rewrite find_head_filter. pose proof (first_unserved s) as H.
  assert (Hpk : pending s k rk).
  { split; [done|]. destruct (isServed rk) eqn:Hs; [|done].
    apply (Hpre k rk Hk) in Hs. lia. }
  destruct (head _) as [[i r]|].
  - destruct H as [[Hi Hs] Hmin]. specialize (Hmin _ _ Hpk).
    assert (k <= i)%nat.
    { destruct (Nat.le_gt_cases k i) as [|Hlt]; [done|].
      apply (Hpre i r Hi) in Hlt. congruence. }
    assert (i = k) as -> by lia. rewrite Hk in Hi. by inversion Hi.
  - by destruct (allServed_no_pending s k rk).
Qed.

Lemma fcfs_run n : forall s k,
  algorithm s = FCFS -> servedPrefix k s ->
  (k + n <= length (requests s))%nat ->
  headTrace n s
    = headPosition s :: take n (drop k (map position (requests s))) /\
  servedPrefix (k + n) (moveHeads n s).
Proof.
  induction n as [|n IH]; intros s k Halg Hpre Hlen.
  - simpl. rewrite Nat.add_0_r. by rewrite take_0.
  - destruct (lookup_lt_is_Some_2 (requests s) k ltac:(lia)) as [rk Hk].
    pose proof (fcfs_selects_prefix_end s k rk Halg Hpre Hk) as Hsel.
    assert (Hreq : requests (moveHead s)
                   = <[k := mkRequest (position rk) true]> (requests s)).
    { rewrite moveHead_requests, Hsel. by apply markServed_insert. }
    assert (Hpre' : servedPrefix (S k) (moveHead s)).
    { intros j r Hj. rewrite Hreq in Hj.
      destruct (decide (j = k)) as [-> | Hne].
      - rewrite list_lookup_insert_eq in Hj by (by apply lookup_lt_Some in Hk).
        inversion Hj; subst. simpl. split; [lia | done].
      - rewrite list_lookup_insert_ne in Hj by done.
        rewrite (Hpre j r Hj). lia. }
    destruct (IH (moveHead s) (S k)) as [Htrace Hpre''].
    + by rewrite moveHead_algorithm.
    + done.
    + rewrite Hreq, length_insert. lia.
    + cbn [headTrace moveHeads]. rewrite Htrace, moveHead_positions.
      rewrite moveHead_head, Hsel. simpl.
      split; [|by replace (k + S n)%nat with (S k + n)%nat by lia].
      f_equal.
      assert (Hpk : map position (requests s) !! k = Some (position rk)).
      { by rewrite map_fmap_local, list_lookup_fmap, Hk. }
      by rewrite (drop_S _ _ _ Hpk).
Qed.

(** X10. Under FCFS, from a reset, the head visits the requests in the
    order of the array: after [n] steps it has gone from 50 through the
    positions of the first [n] requests, exactly these are served, and the
    total seek time is the length of that path. *)
Theorem X10_fcfs_serves_in_array_order (s : State) (n : nat) :
  algorithm s = FCFS -> (n <= length (requests s))%nat ->
  headTrace n (reset s) = 50 :: take n (map position (requests s)) /\
  servedPrefix n (moveHeads n (reset s)) /\
  totalSeekTime (moveHeads n (reset s))
    = travel (50 :: take n (map position (requests s))).
Proof.
  intros Halg Hn.
  destruct (fcfs_run n (reset s) 0) as [Htrace Hpre].
  - done.
  - intros j r Hj. rewrite reset_positions in Hj. simpl in Hj.
    rewrite map_fmap_local, list_lookup_fmap in Hj.
    destruct (_ !! j); [|done]. inversion Hj; subst. simpl. split; [done | lia].
  - rewrite reset_positions. simpl. by rewrite !length_map.
  - rewrite drop_0 in Htrace.
    assert (Hpos : map position (requests (reset s)) = map position (requests s)).
    { unfold reset. simpl. rewrite map_map. by apply map_ext. }
    rewrite Hpos in Htrace. split; [done|]. split; [done|].
    by rewrite moveHeads_cost, Htrace.
Qed.

Lemma X10_fcfs_serves_in_array_order_witness :
  headTrace 3 (reset initialState)
    = 50 :: take 3 (map position (requests initialState)) /\
  servedPrefix 3 (moveHeads 3 (reset initialState)) /\
  totalSeekTime (moveHeads 3 (reset initialState))
    = travel (50 :: take 3 (map position (requests initialState))).
Proof.
  apply (X10_fcfs_serves_in_array_order initialState 3).
  - reflexivity.
  - vm_compute. lia.
Defined.

(** *** SCAN along a run *)

(** The four ways in which SCAN selects a request. *)
Lemma scan_cases s :
  algorithm s = SCAN ->
  match (getNextRequest s).1 with
  | None => allServed s
  | Some (i, r) =>
      pending s i r /\
      match direction s with
      | up =>
          (headPosition s <= position r /\
           direction (getNextRequest s).2 = up /\
           forall j r', ahead s j r' -> position r <= position r') \/
          (position r < headPosition s /\
           direction (getNextRequest s).2 = down /\
           (forall j r', ~ ahead s j r') /\
           forall j r', behind s j r' -> position r' <= position r)
      | down =>
          (position r <= headPosition s /\
           direction (getNextRequest s).2 = down /\
           forall j r', atOrBelow s j r' -> position r' <= position r) \/
          (headPosition s < position r /\
           direction (getNextRequest s).2 = up /\
           (forall j r', ~ atOrBelow s j r') /\
           forall j r', above s j r' -> position r <= position r')
      end
  end.
Proof.
  intros Halg. unfold getNextRequest. rewrite Halg.
  destruct (direction s) eqn:Hdir.
  - pose proof (scan_search ascending (fun e : Ref => position e.2)
                  (fun r : Ref => headPosition s <=? position r.2) s
                  (fun a b => eq_refl)) as Hge.
    pose proof (scan_search descending (fun e : Ref => - position e.2)
                  (fun r : Ref => position r.2 <? headPosition s) s
                  ltac:(intros; unfold descending; lia)) as Hlt.
    simpl in *.
    destruct (head (sort ascending _)) as [[i r]|]; simpl.
    { destruct Hge as (Hp & HQ & Hmin). split; [done|]. left.
      split; [lia|]. split; [done|].
      intros j r' [Hp' Hge']. apply (Hmin j r' Hp'). lia. }
    assert (Hnone : forall j r', ~ ahead s j r').
    { intros j r' [Hp' Hge']. specialize (Hge _ _ Hp'). lia. }
    destruct (head (sort descending _)) as [[i r]|]; simpl.
    + destruct Hlt as (Hp & HQ & Hmin). split; [done|]. right.
      split; [lia|]. split; [done|]. split; [done|].
      intros j r' [Hp' Hlt']. destruct (Hmin j r' Hp' ltac:(lia)). lia.
    + apply no_pending_allServed. intros j r Hp.
      specialize (Hge _ _ Hp). specialize (Hlt _ _ Hp). lia.
  - pose proof (scan_search descending (fun e : Ref => - position e.2)
                  (fun r : Ref => position r.2 <=? headPosition s) s
                  ltac:(intros; unfold descending; lia)) as Hle.
    pose proof (scan_search ascending (fun e : Ref => position e.2)
                  (fun r : Ref => headPosition s <? position r.2) s
                  (fun a b => eq_refl)) as Hgt.
    simpl in *.
    destruct (head (sort descending _)) as [[i r]|]; simpl.
    { destruct Hle as (Hp & HQ & Hmin). split; [done|]. left.
      split; [lia|]. split; [done|].
      intros j r' [Hp' Hle']. destruct (Hmin j r' Hp' ltac:(lia)). lia. }
    assert (Hnone : forall j r', ~ atOrBelow s j r').
    { intros j r' [Hp' Hle']. specialize (Hle _ _ Hp'). lia. }
    destruct (head (sort ascending _)) as [[i r]|]; simpl.
    + destruct Hgt as (Hp & HQ & Hmin). split; [done|]. right.
      split; [lia|]. split; [done|]. split; [done|].
      intros j r' [Hp' Hgt']. apply (Hmin j r' Hp'). lia.
    + apply no_pending_allServed. intros j r Hp.
      specialize (Hle _ _ Hp). specialize (Hgt _ _ Hp). lia.
Qed.

(** X6. Under SCAN a step that serves a request moves the head in the
    direction that the state records after the step: not downwards if that
    direction is up, not upwards if it is down.  The direction changes only
    when no pending request is left on the side the head was sweeping to,
    and the head then moves strictly the other way. *)
Theorem X6_scan_moves_in_its_direction (s : State) (i : nat) (r : Request) :
  algorithm s = SCAN -> (getNextRequest s).1 = Some (i, r) ->
  headPosition (moveHead s) = position r /\
  match direction s, direction (moveHead s) with
  | up, up => headPosition s <= headPosition (moveHead s)
  | up, down =>
      headPosition (moveHead s) < headPosition s /\
      forall j r', ~ ahead s j r'
  | down, down => headPosition (moveHead s) <= headPosition s
  | down, up =>
      headPosition s < headPosition (moveHead s) /\
      forall j r', ~ atOrBelow s j r'
  end.
Proof.
  intros Halg Hsel. pose proof (scan_cases s Halg) as H.
  rewrite moveHead_direction, moveHead_head. rewrite Hsel in *. simpl.
  split; [done|]. destruct H as [_ H].
  destruct (direction s);
    destruct H as [(Hpos & -> & _) | (Hpos & -> & Hnone & _)]; done.
Qed.

Lemma X6_scan_moves_in_its_direction_witness :
  headPosition (moveHead scanTop) = 37 /\
  headPosition (moveHead scanTop) < headPosition scanTop /\
  forall j r', ~ ahead scanTop j r'.
Proof.
  apply (X6_scan_moves_in_its_direction scanTop 2 (mkRequest 37 false));
    reflexivity.
Defined.

(** *** The distance that SCAN travels *)

Lemma existsb_lookup {A : Type} (f : A -> bool) (l : list A) :
  existsb f l = true <-> exists j x, l !! j = Some x /\ f x = true.
Proof.
  rewrite existsb_exists. split.
  - intros (x & Hin & Hf). apply list_elem_of_In, list_elem_of_lookup in Hin.
    destruct Hin as [j Hj]. by exists j, x.
  - intros (j & x & Hj & Hf). exists x. split; [|done].
    apply list_elem_of_In. by eapply list_elem_of_lookup_2.
Qed.

Lemma pendingBelow_spec s : pendingBelow s = true <-> exists j r, behind s j r.
Proof.
  unfold pendingBelow, behind, pending. rewrite existsb_lookup.
  split; intros (j & r & H); exists j, r.
  - destruct H as [Hj Hf]. apply andb_true_iff in Hf as [Hs Hlt].
    apply negb_true_iff in Hs. split; [done | lia].
  - destruct H as [[Hj Hs] Hlt]. split; [done|].
    apply andb_true_iff. split; [by rewrite Hs | lia].
Qed.

Lemma pendingAbove_spec s : pendingAbove s = true <-> exists j r, above s j r.
Proof.
  unfold pendingAbove, above, pending. rewrite existsb_lookup.
  split; intros (j & r & H); exists j, r.
  - destruct H as [Hj Hf]. apply andb_true_iff in Hf as [Hs Hlt].
    apply negb_true_iff in Hs. split; [done | lia].
  - destruct H as [[Hj Hs] Hlt]. split; [done|].
    apply andb_true_iff. split; [by rewrite Hs | lia].
Qed.

(** A request pending after a step was pending before it. *)
Lemma pending_before s j r' :
  pending (moveHead s) j r' -> pending s j r'.
Proof.
  intros [Hj Hs]. pose proof (getNextRequest_spec s) as Hspec.
  rewrite moveHead_requests in Hj.
  destruct ((getNextRequest s).1) as [[i r]|]; [|done].
  destruct Hspec as [Hi _].
  rewrite (markServed_insert i r r (requests s) Hi) in Hj.
  destruct (decide (j = i)) as [-> | Hne].
  - rewrite list_lookup_insert_eq in Hj by (by apply lookup_lt_Some in Hi).
    inversion Hj; subst. done.
  - rewrite list_lookup_insert_ne in Hj by done. done.
Qed.

Lemma sweepBudget_step lo hi s :
  algorithm s = SCAN -> within lo hi s ->
  totalSeekTime (moveHead s) + sweepBudget lo hi (moveHead s)
  <= totalSeekTime s + sweepBudget lo hi s.
Proof.
  intros Halg Hw. pose proof (scan_cases s Halg) as Hcases.
  destruct ((getNextRequest s).1) as [[i r]|] eqn:Hsel.
  - destruct Hcases as [Hp Hcases].
    assert (Hen : nextDisabled s = false).
    { destruct (nextDisabled s) eqn:Hd; [|done].
      apply nextDisabled_allServed in Hd.
      by destruct (allServed_no_pending s i r). }
    destruct Hw as [Hh Hrs]. rewrite Forall_lookup in Hrs.
    pose proof (Hrs i r (proj1 Hp)) as Hr. simpl in Hr.
    pose proof (moveHead_cost s) as Hcost.
    pose proof (moveHead_head s) as Hhead. rewrite Hsel in Hhead. simpl in Hhead.
    pose proof (moveHead_direction s) as Hdir.
    unfold sweepBudget at 2. rewrite Hen.
    unfold sweepBudget.
    destruct (nextDisabled (moveHead s)).
    { destruct (direction s);
        destruct Hcases as [(Hpos & _) | (Hpos & _ & _ & _)];
        [ | assert (Hb : pendingBelow s = true)
              by (apply pendingBelow_spec; by exists i, r); rewrite Hb
          | | assert (Ha : pendingAbove s = true)
              by (apply pendingAbove_spec; by exists i, r); rewrite Ha ];
        try destruct (pendingBelow s); try destruct (pendingAbove s); lia. }
    rewrite Hdir, Hhead.
    destruct (direction s).
    + destruct Hcases as [(Hpos & -> & Hmin) | (Hpos & -> & Hnone & Hmax)].
      * assert (Hmono : pendingBelow (moveHead s) = true -> pendingBelow s = true).
        { intros Hb. apply pendingBelow_spec in Hb as (j & r' & Hp' & Hlt).
          rewrite Hhead in Hlt. apply pending_before in Hp'.
          apply pendingBelow_spec. exists j, r'. split; [done|].
          destruct (Z.lt_ge_cases (position r') (headPosition s)) as [|Hge];
            [done|].
          specialize (Hmin j r' (conj Hp' Hge)). lia. }
        destruct (pendingBelow (moveHead s)).
        -- rewrite (Hmono eq_refl). lia.
        -- destruct (pendingBelow s); lia.
      * assert (Hb : pendingBelow s = true)
          by (apply pendingBelow_spec; by exists i, r).
        assert (Ha : pendingAbove (moveHead s) = false).
        { destruct (pendingAbove (moveHead s)) eqn:Ha; [|done].
          apply pendingAbove_spec in Ha as (j & r' & Hp' & Hgt).
          rewrite Hhead in Hgt. apply pending_before in Hp'.
          destruct (Z.lt_ge_cases (position r') (headPosition s)) as [Hlt|Hge].
          - specialize (Hmax j r' (conj Hp' Hlt)). lia.
          - by destruct (Hnone j r'). }
        rewrite Hb, Ha. lia.
    + destruct Hcases as [(Hpos & -> & Hmax) | (Hpos & -> & Hnone & Hmin)].
      * assert (Hmono : pendingAbove (moveHead s) = true -> pendingAbove s = true).
        { intros Ha. apply pendingAbove_spec in Ha as (j & r' & Hp' & Hgt).
          rewrite Hhead in Hgt. apply pending_before in Hp'.
          apply pendingAbove_spec. exists j, r'. split; [done|].
          destruct (Z.lt_ge_cases (headPosition s) (position r')) as [|Hle];
            [done|].
          specialize (Hmax j r' (conj Hp' Hle)). lia. }
        destruct (pendingAbove (moveHead s)).
        -- rewrite (Hmono eq_refl). lia.
        -- destruct (pendingAbove s); lia.
      * assert (Ha : pendingAbove s = true)
          by (apply pendingAbove_spec; by exists i, r).
        assert (Hb : pendingBelow (moveHead s) = false).
        { destruct (pendingBelow (moveHead s)) eqn:Hb; [|done].
          apply pendingBelow_spec in Hb as (j & r' & Hp' & Hlt).
          rewrite Hhead in Hlt. apply pending_before in Hp'.
          destruct (Z.lt_ge_cases (headPosition s) (position r')) as [Hgt|Hle].
          - specialize (Hmin j r' (conj Hp' Hgt)). lia.
          - by destruct (Hnone j r'). }
        rewrite Ha, Hb. lia.
  - destruct (moveHead_allServed_frame s Hcases) as (_ & _ & Ht & _ & _ & Hall').
    unfold sweepBudget.
    rewrite (proj2 (nextDisabled_allServed _) Hcases).
    rewrite (proj2 (nextDisabled_allServed _) Hall'). lia.
Qed.

Lemma sweepBudget_steps lo hi n s :
  algorithm s = SCAN -> within lo hi s ->
  totalSeekTime (moveHeads n s) + sweepBudget lo hi (moveHeads n s)
  <= totalSeekTime s + sweepBudget lo hi s.
Proof.
  revert s. induction n as [|n IH]; intros s Halg Hw; simpl; [lia|].
  pose proof (sweepBudget_step lo hi s Halg Hw) as Hstep.
  assert (Hw' : within lo hi (moveHead s)).
  { by destruct (within_moveHead lo hi s Hw) as [[? _] | [? _]]. }
  specialize (IH (moveHead s) ltac:(by rewrite moveHead_algorithm) Hw'). lia.
Qed.

Lemma sweepBudget_range lo hi s :
  within lo hi s ->
  0 <= sweepBudget lo hi s <=
    match direction s with
    | up => (hi - headPosition s) + (hi - lo)
    | down => (headPosition s - lo) + (hi - lo)
    end.
Proof.
  intros [Hh _]. unfold sweepBudget.
  destruct (nextDisabled s), (direction s), (pendingBelow s), (pendingAbove s);
    lia.
Qed.

(** X11. Under SCAN, if the head and the requests lie between [lo] and
    [hi], all the steps together never add more to the total seek time
    than one sweep to the end of the range under way and one sweep back
    over the whole range: at most [(hi - head) + (hi - lo)] when the
    direction is up, [(head - lo) + (hi - lo)] when it is down. *)
Theorem X11_scan_travels_at_most_two_sweeps (lo hi : Z) (s : State) (n : nat) :
  algorithm s = SCAN -> within lo hi s ->
  totalSeekTime (moveHeads n s) <=
    totalSeekTime s +
    match direction s with
    | up => (hi - headPosition s) + (hi - lo)
    | down => (headPosition s - lo) + (hi - lo)
    end.
Proof.
  intros Halg Hw.
  pose proof (sweepBudget_steps lo hi n s Halg Hw) as Hsteps.
  pose proof (sweepBudget_range lo hi s Hw) as Hrange.
  assert (Hw' : within lo hi (moveHeads n s)).
  { clear Hsteps Hrange. revert s Halg Hw.
    induction n as [|n IH]; intros s Halg Hw; [done|].
    apply IH; [by rewrite moveHead_algorithm|].
    by destruct (within_moveHead lo hi s Hw) as [[? _] | [? _]]. }
  pose proof (sweepBudget_range lo hi _ Hw') as Hrange'. lia.
Qed.

Lemma X11_scan_travels_at_most_two_sweeps_witness :
  totalSeekTime (moveHeads 8 scanStart) <=
    totalSeekTime scanStart + ((183 - headPosition scanStart) + (183 - 14)).
Proof.
  apply (X11_scan_travels_at_most_two_sweeps 14 183 scanStart 8).
  - reflexivity.
  - split; [vm_compute; split; discriminate|].
    vm_compute. repeat constructor; discriminate.
Defined.

End DiskSchedulingMore.

(** ** Page replacement: the counters, the policies along a run, the play *)

Module PageReplacementMore.
Import JsArray JsArrayFacts PageReplacement PageVocabulary PageControls.
Import PageReplacementSpec.
Local Open Scope Z_scope.

Ltac crush_handleNext s :=
  destruct (resident _ (pages s));
  destruct (Nat.ltb (length (pages s)) frameSize);
  destruct (algorithm s) eqn:?;
  try destruct (pages s !! 0%nat);
  try destruct (pages s !! leastRecent (pages s));
  simpl.


Lemma step_frame now s :
  sequence (step now s) = sequence s /\
  algorithm (step now s) = algorithm s /\
  isPlaying (step now s) = isPlaying s.
Proof.
  unfold step, handleNext.
  destruct (sequence s !! currentStep s) as [newPage|]; [|done].
  crush_handleNext s; done.
Qed.


Lemma run_sequence es s : sequence (run s es) = sequence s.
Proof.
  revert s. induction es as [|e es IH]; intros s; [done|].
  change (run s (e :: es)) with (run (fire e s) es). rewrite IH.
  destruct e; simpl; [apply step_frame | done | done].
Qed.



(** After a step the referenced page is in a frame. *)
Lemma step_resident now s newPage :
  sequence s !! currentStep s = Some newPage ->
  newPage ∈ ids (step now s).
Proof.
  intros Hseq. rewrite step_ids, Hseq.
  destruct (resident newPage (pages s)) eqn:Hres.
  { by apply resident_true in Hres. }
  destruct (Nat.ltb_spec (length (pages s)) frameSize) as [Hlt | Hge].
  { apply elem_of_app. right. by apply list_elem_of_singleton. }
  destruct (algorithm s).
  - apply elem_of_app. right. by apply list_elem_of_singleton.
  - destruct (leastRecent_spec (pages s)) as (victim & Hv & _).
    { intros Hnil. rewrite Hnil in Hge. unfold frameSize in Hge. simpl in Hge.
      lia. }
    apply list_elem_of_lookup. exists (leastRecent (pages s)).
    apply list_lookup_insert_eq. unfold ids. rewrite length_map.
    by apply lookup_lt_Some in Hv.
Qed.

(** X13. After a step made with the button the page it referenced is
    resident, under both algorithms; if the page was resident already, no
    frame changes the page it holds and no fault is counted. *)
Theorem X13_referenced_page_is_resident (now : Z) (s : State) (newPage : Z) :
  sequence s !! currentStep s = Some newPage ->
  newPage ∈ ids (step now s) /\
  (resident newPage (pages s) = true ->
   ids (step now s) = ids s /\ pageFaults (step now s) = pageFaults s).
Proof.
  intros Hseq. split; [by apply step_resident|].
  intros Hres. rewrite step_ids, Hseq, Hres. split; [done|].
  by destruct (step_hit now s newPage Hseq Hres) as (_ & ? & _).
Qed.

Lemma X13_referenced_page_is_resident_witness :
  5 ∈ ids (step 5 fifoFull) /\
  (resident 5 (pages fifoFull) = true ->
   ids (step 5 fifoFull) = ids fifoFull /\
   pageFaults (step 5 fifoFull) = pageFaults fifoFull).
Proof. apply (X13_referenced_page_is_resident 5 fifoFull 5). reflexivity. Defined.

(** X16. The reset and a pending replacement.  Pressed when no
    replacement is pending, the reset leads to one and the same state
    whatever presses of the next-step button came before it, and so does
    the button of an algorithm whatever happened before it: no frame,
    step 0, no fault, the play paused.  The reset cancels no timeout:
    pressed between a press of the next-step button that evicts under FIFO
    and the replacement that the press has left, it empties the frames, and
    the replacement then puts the new page in the emptied simulation,
    which shows one frame at step 0 with no fault counted. *)
Theorem X16_reset_and_pending_replacement (now now' : Z) (s : State)
    (newPage : Z) (nows : list Z) (es : list Event) (alg : Algorithm) :
  (fire Reset (run s (map Next nows)) = reset s /\
   fire (Select alg) (run s es) = fire (Select alg) s /\
   pages (reset s) = [] /\ currentStep (reset s) = 0%nat /\
   pageFaults (reset s) = 0%nat /\ isPlaying (reset s) = false /\
   sequence (reset s) = sequence s) /\
  (algorithm s = FIFO -> evicting s newPage ->
   exists victim,
     pages s !! 0%nat = Some victim /\
     (handleNext now s).2 = Some (FifoReplace newPage victim) /\
     pages (reset (handleNext now s).1) = [] /\
     pages (runTimeout now' (FifoReplace newPage victim)
              (reset (handleNext now s).1))
       = [enteringPage newPage now' (Some (id victim))] /\
     currentStep (runTimeout now' (FifoReplace newPage victim)
                    (reset (handleNext now s).1)) = 0%nat /\
     pageFaults (runTimeout now' (FifoReplace newPage victim)
                   (reset (handleNext now s).1)) = 0%nat /\
     isPlaying (runTimeout now' (FifoReplace newPage victim)
                  (reset (handleNext now s).1)) = false).
Proof.
  assert (Hreset : forall s', reset s' =
            mkState [] (sequence s') 0 false (algorithm s') 0 SelectAndPlay true)
    by done.
  split; [split; [|split; [|done]]|].
  - simpl. rewrite !Hreset, run_sequence. f_equal.
    revert s. induction nows as [|t nows IH]; intros s; [done|].
    change (run s (map Next (t :: nows)))
      with (run (step t s) (map Next nows)).
    rewrite IH. by destruct (step_frame t s) as (_ & ? & _).
  - simpl. rewrite !Hreset. simpl. by rewrite run_sequence.
  - intros Halg (Hseq & Hres & Hlen).
    destruct (pages s !! 0%nat) as [victim|] eqn:Hv.
    + exists victim. split; [done|].
      unfold handleNext. rewrite Hseq, Hres, Halg. simpl.
      destruct (Nat.ltb_spec (length (pages s)) frameSize); [lia|].
      rewrite Hv. done.
    + apply lookup_ge_None in Hv. unfold frameSize in Hlen. lia.
Qed.

Lemma X16_reset_and_pending_replacement_witness :
  exists victim,
    pages fifoFull !! 0%nat = Some victim /\
    (handleNext 5 fifoFull).2 = Some (FifoReplace 5 victim) /\
    pages (reset (handleNext 5 fifoFull).1) = [] /\
    pages (runTimeout 6 (FifoReplace 5 victim) (reset (handleNext 5 fifoFull).1))
      = [enteringPage 5 6 (Some (id victim))] /\
    currentStep (runTimeout 6 (FifoReplace 5 victim)
                   (reset (handleNext 5 fifoFull).1)) = 0%nat /\
    pageFaults (runTimeout 6 (FifoReplace 5 victim)
                  (reset (handleNext 5 fifoFull).1)) = 0%nat /\
    isPlaying (runTimeout 6 (FifoReplace 5 victim)
                 (reset (handleNext 5 fifoFull).1)) = false.
Proof.
  apply (proj2 (X16_reset_and_pending_replacement 5 6 fifoFull 5 [] [] FIFO)).
  - reflexivity.
  - repeat split. vm_compute. lia.
Defined.

(** X17. Except on the first step, whose narration is the welcome, the
    narration of a step announces a fault exactly when the step counts one,
    with the message of the algorithm in use; past the end of the sequence
    the narration is the completion message and nothing is counted. *)
Theorem X17_narration_agrees_with_counter (now : Z) (s : State) :
  match sequence s !! currentStep s with
  | None =>
      narration (step now s) = Completed /\
      pageFaults (step now s) = pageFaults s
  | Some newPage =>
      if Nat.eqb (currentStep s) 0
      then narration (step now s) = Welcome (algorithm s) newPage
      else
        (announcesFault (narration (step now s)) = true <->
         pageFaults (step now s) = S (pageFaults s)) /\
        narration (step now s) =
          match algorithm s, isPageFault s with
          | FIFO, true => FaultFIFO newPage
          | LRU, true => FaultLRU newPage
          | FIFO, false => HitFIFO newPage
          | LRU, false => HitLRU newPage
          end
  end.
Proof.
  unfold isPageFault, step, handleNext, getNarration.
  destruct (sequence s !! currentStep s) as [newPage|]; [|done].
  destruct (Nat.eqb (currentStep s) 0).
  - crush_handleNext s; done.
  - crush_handleNext s; simpl; (split; [split; intros; (done || lia) | done]).
Qed.

(** *** FIFO and the age of the pages *)

Lemma nondecreasing_cons a l :
  nondecreasing (a :: l) ->
  nondecreasing l /\ forall b, head l = Some b -> a <= b.
Proof.
  destruct l as [|b l]; simpl; [done|].
  intros [Hab Hl]. split; [done|]. intros b' Hb. inversion Hb. by subst.
Qed.

Lemma nondecreasing_snoc l x :
  nondecreasing l -> Forall (fun t => t <= x) l -> nondecreasing (l ++ [x]).
Proof.
  induction l as [|a l IH]; intros Hl Hx; [done|].
  apply Forall_cons in Hx as [Hax Hx].
  destruct l as [|b l]; [simpl; done|].
  destruct Hl as [Hab Hl]. split; [done|]. by apply IH.
Qed.

Lemma nondecreasing_drop1 l : nondecreasing l -> nondecreasing (drop 1 l).
Proof.
  destruct l as [|a l]; [done|]. intros H.
  rewrite skipn_cons, drop_0. by apply nondecreasing_cons in H as [? _].
Qed.

Lemma nondecreasing_head a l :
  nondecreasing (a :: l) -> Forall (fun t => a <= t) l.
Proof.
  revert a. induction l as [|b l IH]; intros a H; [done|].
  destruct H as [Hab Hl]. apply Forall_cons. split; [done|].
  eapply Forall_impl; [by apply IH|]. simpl. intros. lia.
Qed.

Lemma step_timestamps_fifo now s :
  algorithm s = FIFO ->
  timestamps (step now s) =
    match sequence s !! currentStep s with
    | None => timestamps s
    | Some newPage =>
        if resident newPage (pages s) then timestamps s
        else if (length (pages s) <? frameSize)%nat then timestamps s ++ [now]
        else drop 1 (timestamps s) ++ [now]
    end.
Proof.
  intros Halg.
  destruct (sequence s !! currentStep s) as [newPage|] eqn:Hseq.
  - destruct (resident newPage (pages s)) eqn:Hres.
    + destruct (step_hit now s newPage Hseq Hres) as (Hp & _).
      unfold timestamps. by rewrite Hp, Halg.
    + destruct (Nat.ltb_spec (length (pages s)) frameSize) as [Hlt | Hge].
      * destruct (step_load now s newPage Hseq Hres Hlt) as (Hp & _).
        unfold timestamps. by rewrite Hp, map_app.
      * assert (Hev : evicting s newPage) by done.
        destruct (step_evict_fifo now s newPage Halg Hev) as (v & _ & Hp & _).
        unfold timestamps. rewrite Hp, map_app, map_map. simpl.
        change (map (fun x => timestamp (notLeaving x)) (drop 1 (pages s)))
          with (map timestamp (drop 1 (pages s))).
        by rewrite !map_fmap, fmap_drop.
  - unfold step. by rewrite step_done.
Qed.

Lemma step_fifo_ordered now s :
  algorithm s = FIFO -> nondecreasing (timestamps s) ->
  Forall (fun t => t <= now) (timestamps s) ->
  nondecreasing (timestamps (step now s)) /\
  Forall (fun t => t <= now) (timestamps (step now s)).
Proof.
  intros Halg Hnd Hle. rewrite step_timestamps_fifo by done.
  destruct (sequence s !! currentStep s) as [newPage|]; [|done].
  destruct (resident newPage (pages s)); [done|].
  destruct (length (pages s) <? frameSize)%nat.
  - split; [by apply nondecreasing_snoc|].
    apply Forall_app. split; [done|]. by apply Forall_cons.
  - split.
    + apply nondecreasing_snoc; [by apply nondecreasing_drop1|].
      by apply Forall_drop.
    + apply Forall_app. split; [by apply Forall_drop|]. by apply Forall_cons.
Qed.

Lemma run_fifo_ordered nows : forall s,
  algorithm s = FIFO -> nondecreasing (timestamps s) ->
  (forall now, head nows = Some now ->
     Forall (fun t => t <= now) (timestamps s)) ->
  nondecreasing nows ->
  nondecreasing (timestamps (run s (map Next nows))).
Proof.
  induction nows as [|now nows IH]; intros s Halg Hnd Hle Hclock; [done|].
  change (run s (map Next (now :: nows)))
    with (run (step now s) (map Next nows)).
  apply nondecreasing_cons in Hclock as [Hclock Hnext].
  destruct (step_fifo_ordered now s Halg Hnd (Hle now eq_refl)) as [Hnd' Hle'].
  apply IH; [|done| |done].
  - by destruct (step_frame now s) as (_ & -> & _).
  - intros now' Hnow'. specialize (Hnext _ Hnow').
    eapply Forall_impl; [exact Hle'|]. simpl. intros. lia.
Qed.

(** X14. Under FIFO, when the clock never goes back, the frames are always
    in the order in which their pages were loaded: the timestamps, which
    FIFO never updates, do not decrease along the array.  So the page of
    frame 0, the one that a fault with full frames removes, is a page that
    has been resident longest. *)
Theorem X14_fifo_evicts_the_oldest (refs nows : list Z) (now newPage : Z) :
  nondecreasing nows ->
  nondecreasing (timestamps (run (start refs FIFO) (map Next nows))) /\
  (evicting (run (start refs FIFO) (map Next nows)) newPage ->
   exists victim,
     pages (run (start refs FIFO) (map Next nows)) !! 0%nat = Some victim /\
     (forall j p,
        pages (run (start refs FIFO) (map Next nows)) !! j = Some p ->
        timestamp victim <= timestamp p) /\
     ids (step now (run (start refs FIFO) (map Next nows)))
       = drop 1 (ids (run (start refs FIFO) (map Next nows))) ++ [newPage]).
Proof.
  intros Hclock.
  assert (Hnd : nondecreasing (timestamps (run (start refs FIFO) (map Next nows)))).
  { apply run_fifo_ordered; try done. }
  split; [done|]. set (s := run (start refs FIFO) (map Next nows)) in *.
  intros Hev.
  assert (Halg : algorithm s = FIFO).
  { unfold s. clear. generalize (start refs FIFO) (eq_refl : algorithm (start refs FIFO) = FIFO).
    induction nows as [|t nows IH]; intros s0 H0; [done|].
    change (run s0 (map Next (t :: nows))) with (run (step t s0) (map Next nows)).
    apply IH. by destruct (step_frame t s0) as (_ & -> & _). }
  destruct (step_evict_fifo now s newPage Halg Hev) as (victim & Hv & _).
  exists victim. split; [done|]. split.
  - intros j p Hj. unfold timestamps in Hnd.
    destruct (pages s) as [|v ps] eqn:Hps; [done|].
    simpl in Hv. inversion Hv; subst v. simpl in Hnd.
    destruct j as [|j]; simpl in Hj; [inversion Hj; lia|].
    apply nondecreasing_head in Hnd. rewrite Forall_lookup in Hnd.
    apply (Hnd j). by rewrite map_fmap, list_lookup_fmap, Hj.
  - pose proof (step_ids now s) as Hids.
    destruct Hev as (Hseq & Hres & Hlen). rewrite Hseq, Hres, Halg in Hids.
    destruct (Nat.ltb_spec (length (pages s)) frameSize); [lia | done].
Qed.

Lemma X14_fifo_evicts_the_oldest_witness :
  nondecreasing
    (timestamps (run (start initialSequence FIFO) (map Next [1; 1; 2; 2]))) /\
  (evicting (run (start initialSequence FIFO) (map Next [1; 1; 2; 2])) 5 ->
   exists victim,
     pages (run (start initialSequence FIFO) (map Next [1; 1; 2; 2])) !! 0%nat
       = Some victim /\
     (forall j p,
        pages (run (start initialSequence FIFO) (map Next [1; 1; 2; 2])) !! j
          = Some p ->
        timestamp victim <= timestamp p) /\
     ids (step 3 (run (start initialSequence FIFO) (map Next [1; 1; 2; 2])))
       = drop 1 (ids (run (start initialSequence FIFO)
                          (map Next [1; 1; 2; 2]))) ++ [5]).
Proof.
  apply (X14_fifo_evicts_the_oldest initialSequence [1; 1; 2; 2] 3 5).
  simpl. lia.
Defined.

(** *** LRU and the page used last *)

Lemma lru_step_marks now s p :
  algorithm s = LRU -> Forall (fun t => t < now) (timestamps s) ->
  sequence s !! currentStep s = Some p ->
  forall q, q ∈ pages (step now s) ->
    id q = p /\ timestamp q = now \/ id q <> p /\ timestamp q < now.
Proof.
  intros Halg Hlt Hseq q Hq.
  assert (Hold : forall q', q' ∈ pages s -> timestamp q' < now).
  { intros q' Hq'. rewrite Forall_forall in Hlt. apply Hlt.
    unfold timestamps. rewrite map_fmap. apply list_elem_of_fmap. by exists q'. }
  assert (Hfresh : resident p (pages s) = false ->
                   forall q', q' ∈ pages s -> id q' <> p).
  { intros Hres q' Hq' Heq. apply resident_false in Hres. apply Hres.
    rewrite map_fmap. apply list_elem_of_fmap. by exists q'. }
  destruct (resident p (pages s)) eqn:Hres.
  - destruct (step_hit now s p Hseq Hres) as (Hp & _).
    rewrite Hp, Halg, map_fmap in Hq.
    apply list_elem_of_fmap in Hq as (q' & -> & Hq').
    destruct (Z.eqb_spec (id q') p) as [Heq | Hne]; simpl; [by left|].
    right. split; [done | by apply Hold].
  - specialize (Hfresh eq_refl).
    destruct (Nat.ltb_spec (length (pages s)) frameSize) as [Hlen | Hge].
    + destruct (step_load now s p Hseq Hres Hlen) as (Hp & _).
      rewrite Hp in Hq. apply elem_of_app in Hq as [Hq | Hq].
      * right. split; [by apply Hfresh | by apply Hold].
      * apply list_elem_of_singleton in Hq as ->. by left.
    + assert (Hev : evicting s p) by done.
      destruct (step_evict_lru now s p Halg Hev) as (v & _ & Hp & _).
      rewrite Hp in Hq. apply elem_of_insert in Hq as [-> | Hq]; [by left|].
      right. split; [by apply Hfresh | by apply Hold].
Qed.

(** X15. Under LRU, for two presses of the next-step button of which each
    is made when no replacement is pending, the replacement that the first
    press may leave having run before the second: when the first press
    reads a time later than every timestamp in the frames, the page it
    references is not the one that an eviction at the second press removes,
    and it is resident after the second press and its replacement. *)
Theorem X15_lru_keeps_the_page_used_last (now now' : Z) (s : State) (p q : Z) :
  algorithm s = LRU -> residentSetOk s ->
  Forall (fun t => t < now) (timestamps s) ->
  sequence s !! currentStep s = Some p ->
  evicting (step now s) q ->
  (exists victim,
     pages (step now s) !! leastRecent (pages (step now s)) = Some victim /\
     id victim <> p) /\
  p ∈ ids (step now' (step now s)).
Proof.
  intros Halg Hok Hlt Hseq Hev.
  pose proof (lru_step_marks now s p Halg Hlt Hseq) as Hmarks.
  pose proof (step_resident now s p Hseq) as Hp.
  destruct (step_ok now s Hok) as [Hlen Hnd].
  set (s1 := step now s) in *.
  destruct (leastRecent_spec (pages s1) (evicting_nonempty _ _ Hev))
    as (victim & Hv & Hmin).
  assert (Hne : id victim <> p).
  { intros Heq.
    assert (Hts : timestamp victim = now).
    { destruct (Hmarks victim) as [[_ ?] | [? _]]; [|done|done].
      by eapply list_elem_of_lookup_2. }
    assert (Hall : forall j x, pages s1 !! j = Some x -> id x = p).
    { intros j x Hj. destruct (Hmarks x) as [[? _] | [_ Hx]];
        [by eapply list_elem_of_lookup_2 | done |].
      destruct (Hmin j x Hj) as [Hle _]. lia. }
    destruct Hev as (_ & _ & Hge). unfold frameSize in Hge.
    destruct (lookup_lt_is_Some_2 (pages s1) 0 ltac:(lia)) as [x0 H0].
    destruct (lookup_lt_is_Some_2 (pages s1) 1 ltac:(lia)) as [x1 H1].
    assert (0 = 1)%nat; [|done].
    apply (NoDup_lookup (ids s1) 0 1 p Hnd); unfold ids;
      rewrite map_fmap, list_lookup_fmap.
    - by rewrite H0, <- (Hall 0%nat x0 H0).
    - by rewrite H1, <- (Hall 1%nat x1 H1). }
  split; [by exists victim|].
  assert (Halg1 : algorithm s1 = LRU).
  { unfold s1. by destruct (step_frame now s) as (_ & -> & _). }
  pose proof (step_ids now' s1) as Hids.
  destruct Hev as (Hseq1 & Hres1 & Hge). rewrite Hseq1, Hres1, Halg1 in Hids.
  destruct (Nat.ltb_spec (length (pages s1)) frameSize); [lia|].
  rewrite Hids. apply list_elem_of_lookup in Hp as [k Hk].
  apply list_elem_of_lookup. exists k. rewrite list_lookup_insert_ne; [done|].
  intros Heq. subst k. unfold ids in Hk.
  rewrite map_fmap, list_lookup_fmap, Hv in Hk. simpl in Hk. congruence.
Qed.

Lemma X15_lru_keeps_the_page_used_last_witness :
  (exists victim,
     pages (step 5 lruFull) !! leastRecent (pages (step 5 lruFull))
       = Some victim /\
     id victim <> 5) /\
  5 ∈ ids (step 6 (step 5 lruFull)).
Proof.
  apply (X15_lru_keeps_the_page_used_last 5 6 lruFull 5 6).
  - reflexivity.
  - split; [vm_compute; lia|].
    apply (bool_decide_unpack _). reflexivity.
  - vm_compute. repeat constructor.
  - reflexivity.
  - repeat split. vm_compute. lia.
Defined.

(** *** The automatic play *)

Ltac crush_seeing s seen :=
  destruct (resident _ seen);
  destruct (Nat.ltb_spec (length seen) frameSize);
  destruct (algorithm s) eqn:?;
  try destruct (seen !! 0%nat) eqn:?;
  try destruct (seen !! leastRecent seen) eqn:?;
  simpl.

Lemma handleNextSeeing_fresh now s :
  handleNextSeeing (pages s) now s = handleNext now s.
Proof. reflexivity. Qed.

Lemma playing_active s ref :
  isPlaying s = true -> sequence s !! currentStep s = Some ref ->
  isPlaying s && (currentStep s <? length (sequence s))%nat = true.
Proof.
  intros -> Hseq. apply lookup_lt_Some in Hseq. simpl. by apply Nat.ltb_lt.
Qed.

Lemma autoTick_fresh now s ref :
  isPlaying s = true -> sequence s !! currentStep s = Some ref ->
  autoTick now (s, pages s) = (step now s, pages (handleNext now s).1).
Proof.
  intros Hp Hseq. unfold autoTick.
  rewrite (playing_active s ref Hp Hseq), handleNextSeeing_fresh.
  unfold step. by destruct (handleNext now s) as [s1 [t|]].
Qed.




Lemma ids_leaving (ps : list Page) (v : nat) :
  map id (mapi (fun i p => if Nat.eqb i v then leaving p else p) ps)
  = map id ps.
Proof.
  apply list_eq. intros j.
  rewrite !map_fmap, !list_lookup_fmap, lookup_mapi.
  destruct (ps !! j); simpl; [|done]. by destruct (Nat.eqb j v).
Qed.




Lemma evicting_seen now s newPage :
  evicting s newPage ->
  exists victim,
    pages s !! victimSlot s = Some victim /\
    pages (handleNext now s).1 =
      mapi (fun i p => if Nat.eqb i (victimSlot s) then leaving p else p)
           (pages s).
Proof.
  intros Hev.
  destruct (leastRecent_spec (pages s) (evicting_nonempty _ _ Hev))
    as (v & Hv & _).
  destruct Hev as (Hseq & Hres & Hlen).
  unfold victimSlot, handleNext. rewrite Hseq, Hres. simpl.
  destruct (Nat.ltb_spec (length (pages s)) frameSize); [lia|].
  destruct (algorithm s).
  - destruct (pages s !! 0%nat) as [v0|] eqn:H0.
    + by exists v0.
    + apply lookup_ge_None in H0. unfold frameSize in *. lia.
  - rewrite Hv. by exists v.
Qed.






Lemma autoTick_lengths now s seen :
  length seen = length (pages s) -> (length (pages s) <= frameSize)%nat ->
  length (autoTick now (s, seen)).2 = length (pages (autoTick now (s, seen)).1) /\
  (length (pages (autoTick now (s, seen)).1) <= frameSize)%nat.
Proof.
  intros Hlen Hcap. unfold autoTick.
  destruct (isPlaying s && (currentStep s <? length (sequence s))%nat);
    [|done].
  unfold handleNextSeeing.
  destruct (sequence s !! currentStep s) as [newPage|]; [|done].
  crush_seeing s seen;
    rewrite ?length_insert, ?length_app, ?length_map, ?length_drop,
            ?length_mapi;
    simpl; unfold frameSize in *; lia.
Qed.

(** X20. Under the automatic play, started from the empty state, the
    frames never exceed three, the array that the installed handler has
    captured has always as many frames as the current one, and so the
    index at which LRU assigns the new page is always an index of the
    current array. *)
Theorem X20_play_keeps_the_capacity (refs : list Z) (alg : Algorithm)
    (nows : list Z) :
  (length (pages (autoRun (play (start refs alg)) nows).1) <= 3)%nat /\
  length (autoRun (play (start refs alg)) nows).2
    = length (pages (autoRun (play (start refs alg)) nows).1) /\
  (pages (autoRun (play (start refs alg)) nows).1 <> [] ->
   (leastRecent (autoRun (play (start refs alg)) nows).2
    < length (pages (autoRun (play (start refs alg)) nows).1))%nat).
Proof.
  assert (Hinv : forall a : Playing,
            length a.2 = length (pages a.1) ->
            (length (pages a.1) <= frameSize)%nat ->
            length (autoRun a nows).2 = length (pages (autoRun a nows).1) /\
            (length (pages (autoRun a nows).1) <= frameSize)%nat).
  { induction nows as [|now nows IH]; intros a Hl Hc; [done|].
    change (autoRun a (now :: nows)) with (autoRun (autoTick now a) nows).
    destruct a as [s seen].
    destruct (autoTick_lengths now s seen Hl Hc) as [Hl' Hc'].
    by apply IH. }
  destruct (Hinv (play (start refs alg))) as [Hl Hc];
    [done | simpl; unfold frameSize; lia |].
  split; [done|]. split; [done|]. intros Hne.
  destruct (leastRecent_spec (autoRun (play (start refs alg)) nows).2)
    as (q & Hq & _).
  - intros Hnil. rewrite Hnil in Hl. simpl in Hl.
    by destruct (pages (autoRun (play (start refs alg)) nows).1).
  - apply lookup_lt_Some in Hq. lia.
Qed.

Lemma X20_play_keeps_the_capacity_witness :
  (leastRecent lruPlayed.2 < length (pages lruPlayed.1))%nat.
Proof.
  apply (X20_play_keeps_the_capacity initialSequence LRU
           (1 :: 2 :: 3 :: 4 :: 5 :: nil)%Z).
  vm_compute. discriminate.
Defined.

(** X21. A firing of the interval whose handler has captured the current
    frames changes the state exactly as a press of the button does.  If it
    evicts nothing, the frames captured for the next firing are the current
    ones again; if it evicts, they are the frames from before the
    replacement, which hold other pages than the current ones. *)
Theorem X21_play_follows_the_button_until_eviction
    (now : Z) (s : State) (ref : Z) :
  isPlaying s = true -> sequence s !! currentStep s = Some ref ->
  (autoTick now (s, pages s)).1 = step now s /\
  (~ evicting s ref -> (autoTick now (s, pages s)).2 = pages (step now s)) /\
  (evicting s ref ->
   map id (autoTick now (s, pages s)).2 = ids s /\
   ids (step now s) <> ids s).
Proof.
  intros Hp Hseq. rewrite (autoTick_fresh now s ref Hp Hseq). cbn [fst snd].
  split; [done|]. split.
  - intros Hnot. unfold step, handleNext. rewrite Hseq.
    destruct (resident ref (pages s)) eqn:Hres; simpl.
    { by destruct (algorithm s). }
    destruct (Nat.ltb_spec (length (pages s)) frameSize) as [Hlt | Hge];
      [done|].
    by destruct Hnot.
  - intros Hev. destruct (evicting_seen now s ref Hev) as (v & _ & ->).
    split; [apply ids_leaving|].
    intros Heq. destruct Hev as (_ & Hres & _).
    apply resident_false in Hres. apply Hres. fold (ids s). rewrite <- Heq.
    by apply step_resident.
Qed.

Lemma X21_play_follows_the_button_until_eviction_witness :
  (autoTick 6 (staleStart, pages staleStart)).1 = step 6 staleStart /\
  (~ evicting staleStart 6 ->
   (autoTick 6 (staleStart, pages staleStart)).2 = pages (step 6 staleStart)) /\
  (evicting staleStart 6 ->
   map id (autoTick 6 (staleStart, pages staleStart)).2 = ids staleStart /\
   ids (step 6 staleStart) <> ids staleStart).
Proof.
  apply (X21_play_follows_the_button_until_eviction 6 staleStart 6);
    reflexivity.
Defined.

(** The default simulation under FIFO, played automatically: the last
    reference to page 3, evicted one step before, is taken for a hit; five
    faults are counted where seven presses of the button count six, and the
    frames end with the pages 0, 5, 6. *)
Lemma play_default_fifo :
  pageFaults (autoRun autoStart [1; 2; 3; 4; 5; 6; 7]).1 = 5%nat /\
  ids (autoRun autoStart [1; 2; 3; 4; 5; 6; 7]).1 = [0; 5; 6] /\
  pageFaults (run initialState (map Next [1; 2; 3; 4; 5; 6; 7])) = 6%nat /\
  ids (run initialState (map Next [1; 2; 3; 4; 5; 6; 7])) = [5; 6; 3].
Proof. repeat split. Qed.

End PageReplacementMore.

(** ** The claims about page replacement, on the two ways a step is taken

    A step is taken either by a press of the next-step button or by a
    firing of the automatic play.  The button calls the [handleNext] of the
    last render: when the replacement that an earlier step has left has run
    before the press, it reads the frames as they are, and the press
    followed by the replacement that it leaves itself, with no event in
    between, is [step].  The interval of the automatic play calls the [handleNext] of
    the render that followed the step before, which has captured the array
    [pages] as it was before the replacement of that step: the firing is
    [autoTick]. *)

Module PageReplacementPaths.
Import JsArray JsArrayFacts PageReplacement PageVocabulary PageControls.
Import PageReplacementSpec PageReplacementMore.
Local Open Scope Z_scope.






(** C4, as stated, fails for the presses of the next-step button: FIFO
    with three frames on 1, 3, 0, 3, 5, 6, 3, stepped by seven presses,
    counts six faults, not five; the last reference to 3 is a fault, page 3
    having left when page 6 came in. *)
Lemma C4_button_counts_six_faults :
  pageFaults (run initialState (map Next [1; 2; 3; 4; 5; 6; 7])) <> 5%nat /\
  faults [1; 2; 3; 4; 5; 6; 7] initialState
    <> [true; true; true; false; true; true; false].
Proof. split; vm_compute; discriminate. Qed.

(** C4, amended.  FIFO with three frames on 1, 3, 0, 3, 5, 6, 3, whatever
    the clock reads.  Played automatically from the initial state, the
    faults are counted exactly at the steps that reference 1, 3, 0, 5 and
    6, the fault count ends at 5 and the frames end with the pages 0, 5, 6:
    the last reference to 3 is tested against the array captured before
    page 6 came in, where page 3 still is.  Stepped by seven presses of the
    next-step button, each made when no replacement is pending and the
    last followed by its replacement, every step is a fault except the second reference to 3 (the fourth step), the
    seventh step included; the fault count ends at 6 and the frames end
    with the pages 5, 6, 3. *)
Theorem C4_fifo_default_sequence (t0 t1 t2 t3 t4 t5 t6 : Z) :
  algorithm initialState = FIFO /\
  sequence initialState = [1; 3; 0; 3; 5; 6; 3] /\
  frameSize = 3%nat /\
  (autoFaults [t0; t1; t2; t3; t4; t5; t6] autoStart
     = [true; true; true; false; true; true; false] /\
   pageFaults (autoRun autoStart [t0; t1; t2; t3; t4; t5; t6]).1 = 5%nat /\
   ids (autoRun autoStart [t0; t1; t2; t3; t4; t5; t6]).1 = [0; 5; 6]) /\
  (faults [t0; t1; t2; t3; t4; t5; t6] initialState
     = [true; true; true; false; true; true; true] /\
   pageFaults (run initialState (map Next [t0; t1; t2; t3; t4; t5; t6]))
     = 6%nat /\
   ids (run initialState (map Next [t0; t1; t2; t3; t4; t5; t6])) = [5; 6; 3]).
Proof. repeat split. Qed.







End PageReplacementPaths.
